(** * BER simulation of BPSK, QPSK and 16-QAM over an AWGN channel

    A shallow embedding of [simulate_ber] from
    [digital_modulation_simulation.py].  numpy's float64 and complex128
    values are idealised as real numbers and pairs of real numbers; the
    int64 bit array keeps its two's-complement wrap-around.  The body of
    the inner loop (one scheme at one Eb/N0 value) is the function [trial];
    the draws of [np.random.randn] are read from an explicit generator
    state that is threaded through the calls. *)

From Stdlib Require Import Reals Lra Lia ZArith List Bool PeanoNat FinFun.
From Stdlib Require Floats.
Import ListNotations.

Set Implicit Arguments.

(** ** Python exceptions *)

Inductive exn : Type :=
| ValueError   (* numpy: shapes that do not broadcast, impossible reshape,
                  argmin of an empty sequence *)
| KeyError     (* dict lookup of an absent key *)
| IndexError.  (* array index out of range *)

Inductive result (A : Type) : Type :=
| Ok (a : A)
| Raise (e : exn).

Arguments Ok {A} a.
Arguments Raise {A} e.

Definition bind {A B : Type} (m : result A) (f : A -> result B) : result B :=
  match m with
  | Ok a => f a
  | Raise e => Raise e
  end.

Declare Scope py_scope.
Delimit Scope py_scope with py.
Notation "x <- m ;; f" := (bind m (fun x => f))
  (at level 61, m at next level, right associativity) : py_scope.
Open Scope py_scope.

Fixpoint mapM {A B : Type} (f : A -> result B) (l : list A) : result (list B) :=
  match l with
  | [] => Ok []
  | x :: t => y <- f x ;; ys <- mapM f t ;; Ok (y :: ys)
  end.

(** ** Complex numbers *)

Module Cplx.

Open Scope R_scope.

Record complex : Type := mkC { re : R; im : R }.

Definition of_real (x : R) : complex := mkC x 0.
Definition of_int (z : Z) : complex := of_real (IZR z).

(** The literal [1j]. *)
Definition j : complex := mkC 0 1.

Definition add (a b : complex) : complex :=
  mkC (re a + re b) (im a + im b).

Definition sub (a b : complex) : complex :=
  mkC (re a - re b) (im a - im b).

Definition mul (a b : complex) : complex :=
  mkC (re a * re b - im a * im b) (re a * im b + im a * re b).

Definition div (a b : complex) : complex :=
  mkC ((re a * re b + im a * im b) / (re b * re b + im b * im b))
      ((im a * re b - re a * im b) / (re b * re b + im b * im b)).

(** [np.abs] of a complex number. *)
Definition abs (a : complex) : R := sqrt (re a * re a + im a * im a).

(** Squared magnitude, the energy of a symbol. *)
Definition norm2 (a : complex) : R := re a * re a + im a * im a.

Definition eq_dec (a b : complex) : {a = b} + {a <> b}.
Proof.
  destruct a as [ar ai], b as [br bi].
  destruct (Req_dec_T ar br) as [Hr | Hr].
  - destruct (Req_dec_T ai bi) as [Hi | Hi].
    + left. now subst.
    + right. intros H. now inversion H.
  - right. intros H. now inversion H.
Defined.

End Cplx.

Import Cplx.

(** ** The int64 element type of the bit array *)

Definition i64 (z : Z) : Z :=
  ((z + 2 ^ 63) mod 2 ^ 64 - 2 ^ 63)%Z.

(** A bit as [np.random.randint(0, 2, n)] draws it. *)
Definition is_bit (b : Z) : Prop := b = 0%Z \/ b = 1%Z.

Definition is_bitb (b : Z) : bool := (b =? 0)%Z || (b =? 1)%Z.

(** ** The numpy operations the simulation uses *)

Module Np.

(** [a[0::2]]; [a[1::2]] is [stride2 (skipn 1 a)]. *)
Fixpoint stride2 {A : Type} (l : list A) : list A :=
  match l with
  | [] => []
  | x :: t =>
      x :: match t with
           | [] => []
           | _ :: t' => stride2 t'
           end
  end.

Fixpoint zip_with {A B C : Type} (f : A -> B -> C)
         (xs : list A) (ys : list B) : list C :=
  match xs, ys with
  | x :: xs', y :: ys' => f x y :: zip_with f xs' ys'
  | _, _ => []
  end.

(** A binary operation on two one-dimensional arrays: equal lengths pair
    up, a length-one operand is stretched, anything else does not
    broadcast. *)
Definition broadcast2 {A B C : Type} (f : A -> B -> C)
           (xs : list A) (ys : list B) : result (list C) :=
  if (length xs =? length ys)%nat then Ok (zip_with f xs ys)
  else match xs, ys with
       | [x], _ => Ok (map (f x) ys)
       | _, [y] => Ok (map (fun x => f x y) xs)
       | _, _ => Raise ValueError
       end.

(** Overwrite the slots 0, 2, 4, ... of [a] with [v], as far as both go. *)
Fixpoint put2 {A : Type} (a v : list A) : list A :=
  match a, v with
  | [], _ => []
  | _, [] => a
  | _ :: t, w :: v' =>
      w :: match t with
           | [] => []
           | y :: t' => y :: put2 t' v'
           end
  end.

(** [a[start::2] = v] for [start] 0 or 1. *)
Definition assign_stride2 {A : Type} (start : nat) (a v : list A)
  : result (list A) :=
  let slots := length (stride2 (skipn start a)) in
  v' <- (if (length v =? slots)%nat then Ok v
         else match v with
              | [x] => Ok (repeat x slots)
              | _ => Raise ValueError
              end) ;;
  Ok (firstn start a ++ put2 (skipn start a) v').

(** [np.empty(n, dtype=int)]: the contents are unspecified; every use
    below overwrites all of them. *)
Definition empty (n : nat) : list Z := repeat 0%Z n.

Fixpoint chunks {A : Type} (k n : nat) (l : list A) : list (list A) :=
  match n with
  | O => []
  | S n' => firstn k l :: chunks k n' (skipn k l)
  end.

(** [a.reshape(-1, k)] for a positive [k]. *)
Definition reshape {A : Type} (k : nat) (l : list A)
  : result (list (list A)) :=
  if (length l mod k =? 0)%nat then Ok (chunks k (length l / k) l)
  else Raise ValueError.

Definition Rltb (x y : R) : bool :=
  if Rlt_dec x y then true else false.

(** [(x < 0).astype(int)] on one element. *)
Definition lt0_int (x : R) : Z := Z.b2z (Rltb x 0).

Fixpoint argmin_from (best : R) (besti i : nat) (l : list R) : nat :=
  match l with
  | [] => besti
  | x :: t =>
      if Rlt_dec x best then argmin_from x i (S i) t
      else argmin_from best besti (S i) t
  end.

(** [np.argmin]: the first index of a least element. *)
Definition argmin (l : list R) : result nat :=
  match l with
  | [] => Raise ValueError
  | x :: t => Ok (argmin_from x 0 1 t)
  end.

(** [a[i]] *)
Definition index {A : Type} (l : list A) (i : nat) : result A :=
  match nth_error l i with
  | Some x => Ok x
  | None => Raise IndexError
  end.

End Np.

(** ** Python dicts, in insertion order *)

Module Dict.

Section WithKey.
Variables K V : Type.
Variable eqb : K -> K -> bool.

Definition t : Type := list (K * V).

Fixpoint get (d : t) (key : K) : result V :=
  match d with
  | [] => Raise KeyError
  | (k0, v) :: d' => if eqb key k0 then Ok v else get d' key
  end.

(** [d[key] = v]: an existing key keeps its place, a new one goes last. *)
Fixpoint set (d : t) (key : K) (v : V) : t :=
  match d with
  | [] => [(key, v)]
  | (k0, w) :: d' =>
      if eqb key k0 then (k0, v) :: d' else (k0, w) :: set d' key v
  end.

(** A dict display or comprehension over the given items. *)
Definition of_items (l : list (K * V)) : t :=
  fold_left (fun d kv => set d (fst kv) (snd kv)) l [].

Definition values (d : t) : list V := map snd d.
Definition items (d : t) : list (K * V) := d.
End WithKey.

End Dict.

(** ** The simulation *)

Inductive scheme : Type := BPSK | QPSK | QAM16.

Definition MODULATION_SCHEMES : list scheme := [BPSK; QPSK; QAM16].

(** The number of bits per symbol that each branch assigns to [k]. *)
Definition k (s : scheme) : nat :=
  match s with
  | BPSK => 1
  | QPSK => 2
  | QAM16 => 4
  end.

(** Equality of tuples of ints, the keys of [mapping]. *)
Fixpoint tuple_eqb (a b : list Z) : bool :=
  match a, b with
  | [], [] => true
  | x :: a', y :: b' => (x =? y)%Z && tuple_eqb a' b'
  | _, _ => false
  end.

(** Equality of complex numbers, the keys of [demapping]. *)
Definition complex_eqb (a b : complex) : bool :=
  if Cplx.eq_dec a b then true else false.

Open Scope R_scope.

Definition mapping_items : list (list Z * complex) :=
  [ ([0;0;0;0]%Z, mkC (-3) (-3)); ([0;0;0;1]%Z, mkC (-3) (-1));
    ([0;0;1;0]%Z, mkC (-3) 3);    ([0;0;1;1]%Z, mkC (-3) 1);
    ([0;1;0;0]%Z, mkC (-1) (-3)); ([0;1;0;1]%Z, mkC (-1) (-1));
    ([0;1;1;0]%Z, mkC (-1) 3);    ([0;1;1;1]%Z, mkC (-1) 1);
    ([1;0;0;0]%Z, mkC 3 (-3));    ([1;0;0;1]%Z, mkC 3 (-1));
    ([1;0;1;0]%Z, mkC 3 3);       ([1;0;1;1]%Z, mkC 3 1);
    ([1;1;0;0]%Z, mkC 1 (-3));    ([1;1;0;1]%Z, mkC 1 (-1));
    ([1;1;1;0]%Z, mkC 1 3);       ([1;1;1;1]%Z, mkC 1 1) ].

(** The 16-QAM table from 4 bits to a constellation point. *)
Definition mapping : Dict.t (list Z) complex :=
  Dict.of_items tuple_eqb mapping_items.

(** [2 * transmitted_bits - 1] on one element. *)
Definition bpsk_symbol (b : Z) : Z := i64 (i64 (2 * b) - 1).

(** [1 - 2 * transmitted_bits[...]] on one element. *)
Definition qpsk_level (b : Z) : Z := i64 (1 - i64 (2 * b)).

(** The modulation branch of a scheme.  BPSK symbols are an int array in
    the source and become complex when the noise is added; they are
    promoted here. *)
Definition modulate (s : scheme) (transmitted_bits : list Z)
  : result (list complex) :=
  match s with
  | BPSK => Ok (map of_int (map bpsk_symbol transmitted_bits))
  | QPSK =>
      let inphase := map qpsk_level (Np.stride2 transmitted_bits) in
      let quadrature :=
        map (fun b => mul j (of_int (qpsk_level b)))
            (Np.stride2 (skipn 1 transmitted_bits)) in
      transmitted_symbols <-
        Np.broadcast2 (fun a c => add (of_int a) c) inphase quadrature ;;
      Ok (map (fun z => div z (of_real (sqrt 2))) transmitted_symbols)
  | QAM16 =>
      bits_reshaped <- Np.reshape (k QAM16) transmitted_bits ;;
      transmitted_symbols <- mapM (Dict.get tuple_eqb mapping) bits_reshaped ;;
      Ok (map (fun z => div z (of_real (sqrt 10))) transmitted_symbols)
  end.

(** *** The channel *)

(** The state of [np.random]: the standard normal draws still to come and
    how many were taken. *)
Record rng : Type := mkRng { stream : nat -> R; pos : nat }.

(** [np.random.randn(n)] *)
Definition randn (n : nat) (g : rng) : list R * rng :=
  (map (stream g) (seq (pos g) n), mkRng (stream g) (pos g + n)).

Definition EbN0_linear (EbN0_dB : R) : R := Rpower 10 (EbN0_dB / 10).

Definition EsN0_linear (s : scheme) (EbN0_dB : R) : R :=
  INR (k s) * EbN0_linear EbN0_dB.

Definition noise_variance (s : scheme) (EbN0_dB : R) : R :=
  1 / (2 * EsN0_linear s EbN0_dB).

(** [np.sqrt(noise_variance) * (randn(n) + 1j * randn(n))] *)
Definition complex_noise (sigma2 : R) (n : nat) (g : rng)
  : list complex * rng :=
  let (xs, g1) := randn n g in
  let (ys, g2) := randn n g1 in
  (map (fun z => mul (of_real (sqrt sigma2)) z)
       (Np.zip_with (fun x y => add (of_real x) (mul j (of_real y))) xs ys),
   g2).

(** [transmitted_symbols + noise] *)
Definition channel (s : scheme) (EbN0_dB : R)
           (transmitted_symbols : list complex) (g : rng)
  : list complex * rng :=
  let (noise, g') :=
    complex_noise (noise_variance s EbN0_dB) (length transmitted_symbols) g in
  (Np.zip_with add transmitted_symbols noise, g').

(** *** Demodulation *)

Definition constellation : list complex :=
  map (fun v => div v (of_real (sqrt 10))) (Dict.values mapping).

Definition demapping : Dict.t complex (list Z) :=
  Dict.of_items complex_eqb
                (map (fun kv => (snd kv, fst kv)) (Dict.items mapping)).

(** The body of the 16-QAM loop: the bits of the nearest point. *)
Definition qam16_decide (s : complex) : result (list Z) :=
  let distances := map (fun c => abs (sub s c)) constellation in
  i <- Np.argmin distances ;;
  closest_point <- Np.index constellation i ;;
  Dict.get complex_eqb demapping (mul closest_point (of_real (sqrt 10))).

(** [for s in received_symbols: received_bits.extend(...)] *)
Fixpoint qam16_loop (received_bits : list Z) (received_symbols : list complex)
  : result (list Z) :=
  match received_symbols with
  | [] => Ok received_bits
  | s :: rest =>
      group <- qam16_decide s ;;
      qam16_loop (received_bits ++ group) rest
  end.

(** The demodulation branch of a scheme; [nbits] is
    [transmitted_bits.shape], which the QPSK branch reads. *)
Definition demodulate (s : scheme) (nbits : nat)
           (received_symbols : list complex) : result (list Z) :=
  match s with
  | BPSK => Ok (map (fun z => Np.lt0_int (re z)) received_symbols)
  | QPSK =>
      let bits_real := map (fun z => Np.lt0_int (re z)) received_symbols in
      let bits_imag := map (fun z => Np.lt0_int (im z)) received_symbols in
      received_bits <- Np.assign_stride2 0 (Np.empty nbits) bits_real ;;
      Np.assign_stride2 1 received_bits bits_imag
  | QAM16 => qam16_loop [] received_symbols
  end.

(** *** One scheme at one Eb/N0 value *)

Definition trial (s : scheme) (EbN0_dB : R) (transmitted_bits : list Z)
           (g : rng) : result (list Z * rng) :=
  transmitted_symbols <- modulate s transmitted_bits ;;
  let (received_symbols, g') := channel s EbN0_dB transmitted_symbols g in
  received_bits <- demodulate s (length transmitted_bits) received_symbols ;;
  Ok (received_bits, g').

(** [np.sum(transmitted_bits != received_bits)] *)
Definition num_errors (transmitted_bits received_bits : list Z) : nat :=
  length (filter (fun p => negb (fst p =? snd p)%Z)
                 (combine transmitted_bits received_bits)).

(** The loop over the schemes at one Eb/N0 value, returning the BER that
    each scheme appends to its result list. *)
Fixpoint run_schemes (schemes : list scheme) (EbN0_dB : R)
         (transmitted_bits : list Z) (g : rng) : result (list R * rng) :=
  match schemes with
  | [] => Ok ([], g)
  | s :: rest =>
      r <- trial s EbN0_dB transmitted_bits g ;;
      let ber := INR (num_errors transmitted_bits (fst r))
                 / INR (length transmitted_bits) in
      r' <- run_schemes rest EbN0_dB transmitted_bits (snd r) ;;
      Ok (ber :: fst r', snd r')
  end.

(** ** Every bit group of a given width, in counting order *)

Fixpoint all_groups (n : nat) : list (list Z) :=
  match n with
  | O => [[]]
  | S n' =>
      map (cons 0%Z) (all_groups n') ++ map (cons 1%Z) (all_groups n')
  end.

(** Mean of the squared magnitudes of a list of points. *)
Definition mean_energy (pts : list complex) : R :=
  fold_right Rplus 0 (map norm2 pts) / INR (length pts).

(** ** The whole sweep *)

Definition NUM_BITS : Z := 10 ^ 6.

(** [np.arange(0, 15, 1)] *)
Definition EbN0_dB_range : list Z := map Z.of_nat (seq 0 15).

Definition scheme_eqb (a b : scheme) : bool :=
  match a, b with
  | BPSK, BPSK | QPSK, QPSK | QAM16, QAM16 => true
  | _, _ => false
  end.

(** A table from scheme to the list of values appended so far. *)
Definition results : Type := Dict.t scheme (list R).

(** [{scheme: [] for scheme in MODULATION_SCHEMES}] *)
Definition empty_results : results :=
  Dict.of_items scheme_eqb (map (fun s => (s, [])) MODULATION_SCHEMES).

(** [d[key].append(x)] *)
Definition append_to (d : results) (key : scheme) (x : R) : result results :=
  l <- Dict.get scheme_eqb d key ;;
  Ok (Dict.set scheme_eqb d key (l ++ [x])).

(** The state of [np.random] in the sweep: besides the normal draws, the
    bits that [randint] is still to return and how many it returned. *)
Record np_random : Type :=
  mkRandom { bit_source : nat -> Z; bits_taken : nat; normal : rng }.

(** [np.random.randint(0, 2, n)] *)
Definition randint (n : nat) (st : np_random) : list Z * np_random :=
  (map (bit_source st) (seq (bits_taken st) n),
   mkRandom (bit_source st) (bits_taken st + n) (normal st)).

(** The loop over the schemes as [simulate_ber] runs it: every trial's
    bit-error rate is appended to the scheme's list. *)
Fixpoint scheme_loop (schemes : list scheme) (num_bits : nat) (EbN0_dB : R)
         (transmitted_bits : list Z) (ber_results : results) (g : rng)
  : result (results * rng) :=
  match schemes with
  | [] => Ok (ber_results, g)
  | s :: rest =>
      r <- trial s EbN0_dB transmitted_bits g ;;
      let ber := INR (num_errors transmitted_bits (fst r)) / INR num_bits in
      ber_results' <- append_to ber_results s ber ;;
      scheme_loop rest num_bits EbN0_dB transmitted_bits ber_results' (snd r)
  end.

(** The loop over the Eb/N0 values.  [erfc] stands for
    [scipy.special.erfc], which the source imports. *)
Fixpoint sweep (erfc : R -> R) (num_bits : nat) (range : list Z)
         (ber_results theoretical_ber : results) (st : np_random)
  : result (results * results * np_random) :=
  match range with
  | [] => Ok (ber_results, theoretical_ber, st)
  | EbN0_dB :: rest =>
      let linear := EbN0_linear (IZR EbN0_dB) in
      let (transmitted_bits, st1) := randint num_bits st in
      r <- scheme_loop MODULATION_SCHEMES num_bits (IZR EbN0_dB)
                       transmitted_bits ber_results (normal st1) ;;
      t1 <- append_to theoretical_ber BPSK (0.5 * erfc (sqrt linear)) ;;
      t2 <- append_to t1 QPSK (0.5 * erfc (sqrt linear)) ;;
      t3 <- append_to t2 QAM16 (3 / 8 * erfc (sqrt (4 / 10 * linear))) ;;
      sweep erfc num_bits rest (fst r) t3
            (mkRandom (bit_source st1) (bits_taken st1) (snd r))
  end.

(** [simulate_ber] with the module's constants as parameters. *)
Definition simulate_with (erfc : R -> R) (num_bits : nat) (range : list Z)
           (st : np_random) : result (results * results) :=
  r <- sweep erfc num_bits range empty_results empty_results st ;;
  Ok (fst r).

Definition simulate_ber (erfc : R -> R) (st : np_random)
  : result (results * results) :=
  simulate_with erfc (Z.to_nat NUM_BITS) EbN0_dB_range st.

(** The closed-form bit-error rate that the sweep appends for a scheme. *)
Definition theoretical (erfc : R -> R) (s : scheme) (EbN0_dB : R) : R :=
  match s with
  | BPSK | QPSK => 0.5 * erfc (sqrt (EbN0_linear EbN0_dB))
  | QAM16 => 3 / 8 * erfc (sqrt (4 / 10 * EbN0_linear EbN0_dB))
  end.

(** A rate between 0 and 1. *)
Definition unit_rate (x : R) : Prop := 0 <= x <= 1.

(** The two tables of the sweep, by scheme. *)
Definition results3 (a b c : list R) : results :=
  [(BPSK, a); (QPSK, b); (QAM16, c)].

(** ** Auxiliary definitions used to state the properties *)

(** The table's values as Gaussian integers. *)
Definition grid_points : list (Z * Z) :=
  [ (-3, -3); (-3, -1); (-3, 3); (-3, 1);
    (-1, -3); (-1, -1); (-1, 3); (-1, 1);
    (3, -3); (3, -1); (3, 3); (3, 1);
    (1, -3); (1, -1); (1, 3); (1, 1) ]%Z.

Definition of_grid (p : Z * Z) : complex := mkC (IZR (fst p)) (IZR (snd p)).

(** The QPSK point of a pair of bits as the source computes it. *)
Definition qpsk_point (g : list Z) : complex :=
  div (add (of_int (qpsk_level (nth 0 g 0%Z)))
           (mul j (of_int (qpsk_level (nth 1 g 0%Z)))))
      (of_real (sqrt 2)).

(** The sample that the channel adds to symbol [i] of [n]: the real part
    comes from the first call of [randn], the imaginary part from the
    second. *)
Definition noise_sample (sigma2 : R) (g : rng) (n i : nat) : complex :=
  mkC (sqrt sigma2 * stream g (pos g + i))
      (sqrt sigma2 * stream g (pos g + n + i)).

(** The generator whose every draw is zero: a channel without noise. *)
Definition silent : rng := mkRng (fun _ => 0) 0.

(** The level on one axis of the 4 x 4 grid that two bits select. *)
Definition grid_level (hi lo : Z) : Z := ((2 * hi - 1) * (3 - 2 * lo))%Z.

(** The point of the grid that four bits select: the first two bits give
    the real level, the last two the imaginary level. *)
Definition grid_point (g : list Z) : complex :=
  mkC (IZR (grid_level (nth 0 g 0%Z) (nth 1 g 0%Z)) / sqrt 10)
      (IZR (grid_level (nth 2 g 0%Z) (nth 3 g 0%Z)) / sqrt 10).

(** The key of the reverse lookup in IEEE binary64, where the idealisation
    to real numbers could hide a rounding error: a table level divided by
    [np.sqrt(10)] and multiplied by it again.  The division of a complex
    array by a real scalar is taken either as a quotient or as a product
    with the reciprocal. *)
Module Binary64.

Import Floats.

Definition root10 : PrimFloat.float := PrimFloat.sqrt 10%float.

Definition levels : list PrimFloat.float :=
  [(-3)%float; (-1)%float; 1%float; 3%float].

Definition by_quotient (v : PrimFloat.float) : PrimFloat.float :=
  PrimFloat.mul (PrimFloat.div v root10) root10.

Definition by_reciprocal (v : PrimFloat.float) : PrimFloat.float :=
  PrimFloat.mul (PrimFloat.mul v (PrimFloat.div 1%float root10)) root10.

Definition exact (f : PrimFloat.float -> PrimFloat.float) : bool :=
  forallb (fun v => PrimFloat.eqb (f v) v) levels.

End Binary64.




(** A level of the 16-QAM grid. *)
Definition level (a : Z) : Prop :=
  a = (-3)%Z \/ a = (-1)%Z \/ a = 1%Z \/ a = 3%Z.


(** The generator after a trial of [n] bits: two calls of [randn], each
    of one draw per symbol. *)
Definition after_trial (s : scheme) (n : nat) (g : rng) : rng :=
  mkRng (stream g) (pos g + 2 * (n / k s)).

(** The energies a transmitted symbol of a scheme can have. *)
Definition symbol_energy (s : scheme) (z : complex) : Prop :=
  match s with
  | BPSK | QPSK => norm2 z = 1
  | QAM16 => norm2 z = 2 / 10 \/ norm2 z = 1 \/ norm2 z = 18 / 10
  end.

(** * Properties *)

(** ** Arithmetic of the complex operations *)

Lemma sqrt2_neq_0 : sqrt 2 <> 0.
Proof.
  intros H. apply sqrt_eq_0 in H; lra.
Qed.

Lemma sqrt10_neq_0 : sqrt 10 <> 0.
Proof.
  intros H. apply sqrt_eq_0 in H; lra.
Qed.

Lemma div_of_real (z : complex) (s : R) :
  s <> 0 -> div z (of_real s) = mkC (re z / s) (im z / s).
Proof.
  intros Hs. unfold div, of_real. simpl. f_equal; field; assumption.
Qed.

Lemma mul_of_real_r (z : complex) (s : R) :
  mul z (of_real s) = mkC (re z * s) (im z * s).
Proof.
  unfold mul, of_real. simpl. f_equal; ring.
Qed.

Lemma mul_of_real_l (s : R) (z : complex) :
  mul (of_real s) z = mkC (s * re z) (s * im z).
Proof.
  unfold mul, of_real. simpl. f_equal; ring.
Qed.

Lemma mul_j_of_real (y : R) : mul j (of_real y) = mkC 0 y.
Proof.
  unfold mul, j, of_real. simpl. f_equal; ring.
Qed.

Lemma add_of_real_imag (x y : R) :
  add (of_real x) (mul j (of_real y)) = mkC x y.
Proof.
  rewrite mul_j_of_real. unfold add, of_real. simpl. f_equal; ring.
Qed.

Lemma mul_div_of_real (z : complex) (s : R) :
  s <> 0 -> mul (div z (of_real s)) (of_real s) = z.
Proof.
  intros Hs. rewrite div_of_real by assumption. rewrite mul_of_real_r.
  destruct z as [a b]. simpl. f_equal; field; assumption.
Qed.

Lemma div_of_real_inj (s : R) (a b : complex) :
  s <> 0 -> div a (of_real s) = div b (of_real s) -> a = b.
Proof.
  intros Hs H.
  rewrite <- (mul_div_of_real a Hs), <- (mul_div_of_real b Hs).
  now rewrite H.
Qed.

Lemma norm2_div_of_real (z : complex) (s : R) :
  s <> 0 -> norm2 (div z (of_real s)) = norm2 z / (s * s).
Proof.
  intros Hs. rewrite div_of_real by assumption.
  unfold norm2. simpl. field. assumption.
Qed.

Lemma abs_zero (z : complex) : abs z = 0 -> z = mkC 0 0.
Proof.
  destruct z as [a b]. unfold abs. simpl. intros H.
  apply sqrt_eq_0 in H; [| nra].
  f_equal; nra.
Qed.

Lemma abs_nonneg (z : complex) : 0 <= abs z.
Proof. apply sqrt_pos. Qed.

Lemma abs_sub_self (z : complex) : abs (sub z z) = 0.
Proof.
  unfold abs, sub. simpl.
  replace ((re z - re z) * (re z - re z) + (im z - im z) * (im z - im z))
    with 0 by ring.
  apply sqrt_0.
Qed.

Lemma sub_zero_eq (a b : complex) : sub a b = mkC 0 0 -> a = b.
Proof.
  destruct a as [ar ai], b as [br bi]. unfold sub. simpl.
  intros H. inversion H. f_equal; lra.
Qed.

Lemma add_zero_r (z : complex) : add z (mkC 0 0) = z.
Proof.
  destruct z as [a b]. unfold add. simpl. f_equal; ring.
Qed.

Lemma complex_eqb_eq (a b : complex) : complex_eqb a b = true <-> a = b.
Proof.
  unfold complex_eqb. destruct (Cplx.eq_dec a b); split; congruence.
Qed.

Lemma tuple_eqb_eq (a b : list Z) : tuple_eqb a b = true <-> a = b.
Proof.
  revert b. induction a as [| x a IH]; intros [| y b]; simpl;
    try (split; congruence).
  rewrite andb_true_iff, Z.eqb_eq, IH. split.
  - intros [-> ->]. reflexivity.
  - intros H. inversion H. auto.
Qed.

(** ** Dicts whose keys are pairwise distinct *)

Section DictFacts.
Variables K V : Type.
Variable eqb : K -> K -> bool.
Hypothesis eqb_eq : forall a b, eqb a b = true <-> a = b.

Lemma eqb_refl (a : K) : eqb a a = true.
Proof. now apply eqb_eq. Qed.

Lemma eqb_neq (a b : K) : a <> b -> eqb a b = false.
Proof.
  intros H. destruct (eqb a b) eqn:E; [| reflexivity].
  apply eqb_eq in E. contradiction.
Qed.

Lemma set_fresh (d : Dict.t K V) (key : K) (v : V) :
  ~ In key (map fst d) -> Dict.set eqb d key v = d ++ [(key, v)].
Proof.
  induction d as [| [k0 w] d IH]; simpl; intros Hn.
  - reflexivity.
  - rewrite eqb_neq by (intros ->; apply Hn; now left).
    rewrite IH; [reflexivity |]. intros Hin. apply Hn. now right.
Qed.

Lemma fold_set_nodup (l : list (K * V)) (d : Dict.t K V) :
  NoDup (map fst (d ++ l)) ->
  fold_left (fun d kv => Dict.set eqb d (fst kv) (snd kv)) l d = d ++ l.
Proof.
  revert d. induction l as [| [k0 v] l IH]; intros d Hnd; simpl.
  - now rewrite app_nil_r.
  - rewrite set_fresh.
    + rewrite IH; rewrite <- app_assoc; [reflexivity | exact Hnd].
    + rewrite map_app in Hnd. simpl in Hnd.
      apply NoDup_remove_2 in Hnd.
      intros Hin. apply Hnd. apply in_or_app. now left.
Qed.

Lemma of_items_nodup (l : list (K * V)) :
  NoDup (map fst l) -> Dict.of_items eqb l = l.
Proof.
  intros Hnd. unfold Dict.of_items. now rewrite fold_set_nodup.
Qed.

Lemma get_in (d : Dict.t K V) (key : K) (v : V) :
  NoDup (map fst d) -> In (key, v) d -> Dict.get eqb d key = Ok v.
Proof.
  induction d as [| [k0 w] d IH]; simpl; intros Hnd Hin.
  - contradiction.
  - inversion Hnd as [| ? ? Hnotin Hnd']; subst.
    destruct Hin as [Heq | Hin].
    + inversion Heq; subst. now rewrite eqb_refl.
    + rewrite eqb_neq; [now apply IH |].
      intros ->. apply Hnotin. apply (in_map fst) in Hin. exact Hin.
Qed.

Lemma get_ok_in (d : Dict.t K V) (key : K) (v : V) :
  Dict.get eqb d key = Ok v -> In (key, v) d.
Proof.
  induction d as [| [k0 w] d IH]; simpl; intros H.
  - discriminate.
  - destruct (eqb key k0) eqn:E.
    + apply eqb_eq in E. inversion H; subst. now left.
    + right. now apply IH.
Qed.
End DictFacts.

Lemma nodup_snd_functional (A B : Type) (l : list (A * B)) (a b : A) (v : B) :
  NoDup (map snd l) -> In (a, v) l -> In (b, v) l -> a = b.
Proof.
  induction l as [| [a0 v0] l IH]; simpl; intros Hnd Ha Hb.
  - contradiction.
  - inversion Hnd as [| ? ? Hnotin Hnd']; subst.
    destruct Ha as [Ha | Ha], Hb as [Hb | Hb].
    + congruence.
    + inversion Ha; subst. exfalso. apply Hnotin.
      apply (in_map snd) in Hb. exact Hb.
    + inversion Hb; subst. exfalso. apply Hnotin.
      apply (in_map snd) in Ha. exact Ha.
    + now apply IH.
Qed.

(** ** The first least element *)

Lemma argmin_from_spec (l pre : list R) (best : R) (besti : nat) :
  nth_error pre besti = Some best ->
  (forall y, In y pre -> best <= y) ->
  exists m,
    nth_error (pre ++ l) (Np.argmin_from best besti (length pre) l) = Some m
    /\ forall y, In y (pre ++ l) -> m <= y.
Proof.
  revert pre best besti.
  induction l as [| x t IH]; intros pre best besti Hbest Hmin; simpl.
  - exists best. rewrite app_nil_r. auto.
  - replace (pre ++ x :: t) with ((pre ++ [x]) ++ t)
      by (rewrite <- app_assoc; reflexivity).
    replace (S (length pre)) with (length (pre ++ [x]))
      by (rewrite length_app; simpl; lia).
    destruct (Rlt_dec x best) as [Hlt | Hge].
    + replace (length pre) with (length pre + 0)%nat at 1 by lia.
      apply IH.
      * replace (length pre + 0)%nat with (length pre) by lia.
        rewrite nth_error_app2 by lia.
        now rewrite Nat.sub_diag.
      * intros y Hy. apply in_app_or in Hy. destruct Hy as [Hy | [Hy | []]].
        -- specialize (Hmin y Hy). lra.
        -- subst. lra.
    + apply IH.
      * rewrite nth_error_app1; [exact Hbest |].
        apply nth_error_Some. congruence.
      * intros y Hy. apply in_app_or in Hy. destruct Hy as [Hy | [Hy | []]].
        -- now apply Hmin.
        -- subst. lra.
Qed.

Lemma argmin_spec (l : list R) :
  l <> [] ->
  exists i m,
    Np.argmin l = Ok i /\ nth_error l i = Some m
    /\ forall y, In y l -> m <= y.
Proof.
  destruct l as [| x t]; [congruence |]. intros _.
  destruct (@argmin_from_spec t [x] x 0%nat) as [m [Hn Hm]].
  - reflexivity.
  - intros y [-> | []]. lra.
  - exists (Np.argmin_from x 0 1 t), m. simpl in *. auto.
Qed.

(** ** The 16-QAM table *)

Lemma mapping_unfold : mapping = mapping_items.
Proof. reflexivity. Qed.

Lemma mapping_keys : map fst mapping_items = all_groups 4.
Proof. reflexivity. Qed.

Lemma mapping_keys_nodup : NoDup (map fst mapping_items).
Proof.
  rewrite mapping_keys. simpl.
  repeat (constructor; [simpl; intuition congruence |]). constructor.
Qed.

Lemma mapping_values_grid : map snd mapping_items = map of_grid grid_points.
Proof. reflexivity. Qed.

Lemma of_grid_inj (p q : Z * Z) : of_grid p = of_grid q -> p = q.
Proof.
  destruct p as [a b], q as [c d]. unfold of_grid. simpl.
  intros H. inversion H as [[Hr Hi]].
  apply eq_IZR in Hr. apply eq_IZR in Hi. congruence.
Qed.

Lemma grid_points_nodup : NoDup grid_points.
Proof.
  unfold grid_points.
  repeat (constructor; [simpl; intuition congruence |]). constructor.
Qed.

Lemma mapping_values_nodup : NoDup (map snd mapping_items).
Proof.
  rewrite mapping_values_grid.
  apply Injective_map_NoDup.
  - intros p q. apply of_grid_inj.
  - apply grid_points_nodup.
Qed.

Lemma demapping_unfold :
  demapping = map (fun kv => (snd kv, fst kv)) mapping_items.
Proof.
  unfold demapping, Dict.items. rewrite mapping_unfold.
  apply of_items_nodup.
  - apply complex_eqb_eq.
  - rewrite map_map. simpl. apply mapping_values_nodup.
Qed.

Lemma mapping_get (g : list Z) (v : complex) :
  In (g, v) mapping_items -> Dict.get tuple_eqb mapping g = Ok v.
Proof.
  intros Hin. rewrite mapping_unfold. apply get_in.
  - apply tuple_eqb_eq.
  - apply mapping_keys_nodup.
  - exact Hin.
Qed.

Lemma demapping_get (g : list Z) (v : complex) :
  In (g, v) mapping_items -> Dict.get complex_eqb demapping v = Ok g.
Proof.
  intros Hin. rewrite demapping_unfold. apply get_in.
  - apply complex_eqb_eq.
  - rewrite map_map. simpl. apply mapping_values_nodup.
  - apply in_map_iff. exists (g, v). auto.
Qed.

Lemma constellation_unfold :
  constellation =
  map (fun v => div v (of_real (sqrt 10))) (map snd mapping_items).
Proof. reflexivity. Qed.

(** The decision of the 16-QAM loop body: it never raises, and it returns
    the bits of a table entry whose normalised point is at least as near to
    the received symbol as every other. *)
Lemma qam16_decide_spec (z : complex) :
  exists g v,
    In (g, v) mapping_items
    /\ qam16_decide z = Ok g
    /\ forall v', In v' (map snd mapping_items) ->
         abs (sub z (div v (of_real (sqrt 10))))
         <= abs (sub z (div v' (of_real (sqrt 10)))).
Proof.
  unfold qam16_decide.
  destruct (@argmin_spec (map (fun c => abs (sub z c)) constellation))
    as [i [m [Harg [Hnth Hmin]]]].
  - rewrite constellation_unfold. discriminate.
  - rewrite Harg. cbn [bind].
    rewrite nth_error_map in Hnth.
    destruct (nth_error constellation i) as [c |] eqn:Hc; [| discriminate].
    cbn [option_map] in Hnth. inversion Hnth; subst m. clear Hnth.
    unfold Np.index. rewrite Hc. cbn [bind].
    pose proof (nth_error_In _ _ Hc) as Hin.
    rewrite constellation_unfold in Hin.
    apply in_map_iff in Hin. destruct Hin as [v [Hv Hin]].
    apply in_map_iff in Hin. destruct Hin as [[g v0] [Hv0 Hin]].
    cbn [snd] in Hv0. subst v0 c.
    exists g, v. split; [exact Hin |]. split.
    + rewrite mul_div_of_real by apply sqrt10_neq_0.
      now apply demapping_get.
    + intros v' Hv'. apply Hmin.
      apply in_map_iff. exists (div v' (of_real (sqrt 10))). split; auto.
      rewrite constellation_unfold.
      apply (in_map (fun w => div w (of_real (sqrt 10)))). exact Hv'.
Qed.

(** ** Bit groups *)

Lemma all_groups_sound (n : nat) (g : list Z) :
  In g (all_groups n) -> length g = n /\ Forall is_bit g.
Proof.
  revert g. induction n as [| n IH]; simpl; intros g Hin.
  - destruct Hin as [<- | []]. split; [reflexivity | constructor].
  - apply in_app_or in Hin.
    destruct Hin as [Hin | Hin]; apply in_map_iff in Hin;
      destruct Hin as [g' [<- Hin]]; destruct (IH g' Hin) as [Hl Hb];
      simpl; split; try congruence; constructor; auto.
    + now left.
    + now right.
Qed.

Lemma all_groups_complete (n : nat) (g : list Z) :
  length g = n -> Forall is_bit g -> In g (all_groups n).
Proof.
  revert g. induction n as [| n IH]; intros [| b g] Hl Hb;
    simpl in Hl; try discriminate.
  - now left.
  - inversion Hb as [| ? ? Hb0 Hb']; subst.
    simpl. apply in_or_app.
    destruct Hb0 as [-> | ->]; [left | right];
      apply in_map; apply IH; auto.
Qed.

Lemma all_groups_length (n : nat) : length (all_groups n) = (2 ^ n)%nat.
Proof.
  induction n as [| n IH]; simpl; [reflexivity |].
  rewrite length_app, !length_map, IH. lia.
Qed.

Lemma mapping_entry_bits (g : list Z) (v : complex) :
  In (g, v) mapping_items -> length g = 4%nat /\ Forall is_bit g.
Proof.
  intros Hin. apply all_groups_sound. rewrite <- mapping_keys.
  apply (in_map fst) in Hin. exact Hin.
Qed.

Lemma mapping_total (g : list Z) :
  length g = 4%nat -> Forall is_bit g ->
  exists v, In (g, v) mapping_items.
Proof.
  intros Hl Hb.
  pose proof (all_groups_complete Hl Hb) as Hin.
  rewrite <- mapping_keys in Hin. apply in_map_iff in Hin.
  destruct Hin as [[g' v] [Hg Hin]]. simpl in Hg. subst g'.
  now exists v.
Qed.

(** ** Strided slices and strided assignment *)

Lemma list_ind2 (A : Type) (P : list A -> Prop) :
  P [] -> (forall x, P [x]) -> (forall x y l, P l -> P (x :: y :: l)) ->
  forall l, P l.
Proof.
  intros H0 H1 H2 l.
  assert (H : P l /\ forall x, P (x :: l)).
  { induction l as [| y l [IHa IHb]]; split; auto. }
  apply H.
Qed.

Lemma stride2_length (A : Type) (l : list A) :
  length (Np.stride2 l) = Nat.div2 (S (length l)).
Proof.
  induction l as [| x | x y l IH] using list_ind2; try reflexivity.
  cbn [Np.stride2 length]. rewrite IH. reflexivity.
Qed.

Lemma put2_length (A : Type) (a v : list A) :
  length (Np.put2 a v) = length a.
Proof.
  revert v. induction a as [| x | x y a IH] using list_ind2;
    intros [| w v]; try reflexivity.
  cbn [Np.put2 length]. now rewrite IH.
Qed.

Lemma put2_interleave (A B : Type) (f g : B -> A) (rs : list B) (a : list A) :
  length a = (2 * length rs)%nat ->
  firstn 1 (Np.put2 a (map f rs))
    ++ Np.put2 (skipn 1 (Np.put2 a (map f rs))) (map g rs)
  = concat (map (fun z => [f z; g z]) rs).
Proof.
  revert a. induction rs as [| z rs IH]; intros a Hlen.
  - destruct a; [reflexivity | discriminate].
  - destruct a as [| a0 [| a1 a]]; simpl in Hlen; try lia.
    cbn [map Np.put2 firstn skipn concat app].
    f_equal. f_equal.
    rewrite <- (IH a) by lia.
    destruct (Np.put2 a (map f rs)); reflexivity.
Qed.

Lemma concat_singletons (A B : Type) (f : B -> A) (l : list B) :
  concat (map (fun z => [f z]) l) = map f l.
Proof.
  induction l as [| x l IH]; simpl; congruence.
Qed.

Lemma lt0_int_bit (x : R) : is_bit (Np.lt0_int x).
Proof.
  unfold Np.lt0_int, Np.Rltb, is_bit.
  destruct (Rlt_dec x 0); simpl; auto.
Qed.

Lemma assign_stride2_fits (A : Type) (start : nat) (a v : list A) :
  length v = Nat.div2 (S (length a - start)) ->
  Np.assign_stride2 start a v
  = Ok (firstn start a ++ Np.put2 (skipn start a) v).
Proof.
  intros Hlen. unfold Np.assign_stride2.
  rewrite stride2_length, length_skipn, <- Hlen, Nat.eqb_refl.
  reflexivity.
Qed.

Lemma qpsk_demodulate (rs : list complex) :
  demodulate QPSK (2 * length rs) rs
  = Ok (concat (map (fun z => [Np.lt0_int (re z); Np.lt0_int (im z)]) rs)).
Proof.
  unfold demodulate, Np.empty.
  rewrite assign_stride2_fits.
  2:{ rewrite length_map, repeat_length, Nat.sub_0_r.
      now rewrite Nat.div2_succ_double. }
  cbn [bind firstn skipn app].
  rewrite assign_stride2_fits.
  2:{ rewrite length_map, put2_length, repeat_length.
      destruct (length rs) as [| n]; [reflexivity |].
      replace (S (2 * S n - 1)) with (2 * S n)%nat by lia.
      now rewrite Nat.div2_double. }
  f_equal. apply put2_interleave. now rewrite repeat_length.
Qed.

Lemma qam16_loop_groups (rs : list complex) (acc : list Z) :
  exists groups,
    qam16_loop acc rs = Ok (acc ++ concat groups)
    /\ Forall2 (fun z g => qam16_decide z = Ok g) rs groups.
Proof.
  revert acc. induction rs as [| z rs IH]; intros acc.
  - exists []. simpl. rewrite app_nil_r. split; constructor.
  - destruct (qam16_decide_spec z) as [g [v [Hin [Hdec _]]]].
    destruct (IH (acc ++ g)) as [groups [Hloop Hall]].
    exists (g :: groups). cbn [qam16_loop]. rewrite Hdec. cbn [bind].
    rewrite Hloop. cbn [concat]. rewrite app_assoc. split; auto.
Qed.

Lemma qam16_decide_bits (z : complex) (g : list Z) :
  qam16_decide z = Ok g -> length g = 4%nat /\ Forall is_bit g.
Proof.
  intros H. destruct (qam16_decide_spec z) as [g' [v [Hin [Hdec _]]]].
  rewrite Hdec in H. inversion H; subst. now apply (@mapping_entry_bits g v).
Qed.

(** Demodulation as a whole: it never raises when [nbits] is the bit count
    of the received symbols, and its output is the concatenation, in order,
    of what it decides for each symbol alone. *)
Lemma demodulate_groups (s : scheme) (rs : list complex) :
  exists groups,
    demodulate s (k s * length rs) rs = Ok (concat groups)
    /\ Forall2 (fun z g => demodulate s (k s) [z] = Ok g
                           /\ length g = k s /\ Forall is_bit g) rs groups.
Proof.
  destruct s.
  - exists (map (fun z => [Np.lt0_int (re z)]) rs). split.
    + cbn [demodulate]. now rewrite concat_singletons.
    + induction rs as [| z rs IH]; constructor; auto.
      repeat split. constructor; [apply lt0_int_bit | constructor].
  - exists (map (fun z => [Np.lt0_int (re z); Np.lt0_int (im z)]) rs). split.
    + apply qpsk_demodulate.
    + induction rs as [| z rs IH]; constructor; auto.
      repeat split.
      constructor; [apply lt0_int_bit |].
      constructor; [apply lt0_int_bit | constructor].
  - destruct (qam16_loop_groups rs []) as [groups [Hloop Hall]].
    exists groups. split; [exact Hloop |]. clear Hloop.
    induction Hall as [| z g rs groups Hz Hall IH]; constructor; auto.
    destruct (qam16_decide_bits _ Hz) as [Hl Hb].
    repeat split; auto.
    cbn [demodulate qam16_loop]. rewrite Hz. reflexivity.
Qed.

(** ** Reshaping into groups *)

Lemma length_concat_uniform (A : Type) (n : nat) (groups : list (list A)) :
  Forall (fun g => length g = n) groups ->
  length (concat groups) = (n * length groups)%nat.
Proof.
  induction 1 as [| g groups Hg _ IH]; simpl.
  - lia.
  - rewrite length_app, IH, Hg. lia.
Qed.

Lemma chunks_concat (A : Type) (n : nat) (groups : list (list A)) :
  Forall (fun g => length g = n) groups ->
  Np.chunks n (length groups) (concat groups) = groups.
Proof.
  induction 1 as [| g groups Hg _ IH]; simpl; [reflexivity |].
  rewrite firstn_app, skipn_app, Hg, Nat.sub_diag.
  rewrite firstn_all2, skipn_all2 by lia.
  cbn [firstn skipn app]. rewrite app_nil_r. now rewrite IH.
Qed.

Lemma chunks_spec (A : Type) (n m : nat) (l : list A) :
  length l = (n * m)%nat ->
  concat (Np.chunks n m l) = l
  /\ Forall (fun g => length g = n) (Np.chunks n m l)
  /\ length (Np.chunks n m l) = m.
Proof.
  revert l. induction m as [| m IH]; intros l Hlen; simpl.
  - replace (n * 0)%nat with 0%nat in Hlen by lia.
    destruct l; [| discriminate]. repeat split; constructor.
  - destruct (IH (skipn n l)) as [Hc [Hf Hl]].
    { rewrite length_skipn. lia. }
    rewrite Hc, Hl, firstn_skipn. repeat split.
    constructor; [| exact Hf].
    rewrite length_firstn. lia.
Qed.

(** A bit sequence whose length is a multiple of [n] is the concatenation
    of its groups of [n] bits. *)
Lemma split_groups (n : nat) (bits : list Z) :
  n <> 0%nat -> (length bits mod n = 0)%nat -> Forall is_bit bits ->
  exists groups,
    bits = concat groups
    /\ Forall (fun g => length g = n /\ Forall is_bit g) groups.
Proof.
  intros Hn Hmod Hbits.
  destruct (@chunks_spec Z n (length bits / n) bits) as [Hc [Hf Hl]].
  { pose proof (Nat.div_mod_eq (length bits) n). lia. }
  exists (Np.chunks n (length bits / n) bits). split; [now rewrite Hc |].
  rewrite <- Hc in Hbits. apply Forall_concat in Hbits.
  rewrite Forall_forall in *. intros g Hg. split; auto.
Qed.

Lemma reshape_concat (A : Type) (n : nat) (groups : list (list A)) :
  n <> 0%nat -> Forall (fun g => length g = n) groups ->
  Np.reshape n (concat groups) = Ok groups.
Proof.
  intros Hn Hf. unfold Np.reshape.
  rewrite (length_concat_uniform Hf).
  rewrite Nat.mul_comm, Nat.Div0.mod_mul, Nat.div_mul by assumption.
  simpl. now rewrite chunks_concat.
Qed.

Lemma uniform_weaken (n : nat) (groups : list (list Z)) :
  Forall (fun g => length g = n /\ Forall is_bit g) groups ->
  Forall (fun g => length g = n) groups.
Proof.
  apply Forall_impl. now intros g [H _].
Qed.

(** ** Modulation, group by group *)

Lemma bpsk_symbol_bit (b : Z) : is_bit b -> bpsk_symbol b = (2 * b - 1)%Z.
Proof. intros [-> | ->]; reflexivity. Qed.

Lemma qpsk_level_bit (b : Z) : is_bit b -> qpsk_level b = (1 - 2 * b)%Z.
Proof. intros [-> | ->]; reflexivity. Qed.

Lemma stride2_skip_cons (A : Type) (x : A) (l : list A) :
  Np.stride2 (x :: l) = x :: Np.stride2 (skipn 1 l).
Proof. destruct l; reflexivity. Qed.

Lemma zip_with_map (A B C D : Type) (f : A -> B -> C)
      (a : D -> A) (b : D -> B) (l : list D) :
  Np.zip_with f (map a l) (map b l) = map (fun x => f (a x) (b x)) l.
Proof.
  induction l as [| x l IH]; simpl; congruence.
Qed.

Lemma qpsk_strides (groups : list (list Z)) :
  Forall (fun g => length g = 2%nat) groups ->
  Np.stride2 (concat groups) = map (fun g => nth 0 g 0%Z) groups
  /\ Np.stride2 (skipn 1 (concat groups)) = map (fun g => nth 1 g 0%Z) groups.
Proof.
  induction 1 as [| g groups Hg _ [IH0 IH1]]; [split; reflexivity |].
  destruct g as [| b0 [| b1 [| ? ?]]]; try discriminate.
  change (concat ([b0; b1] :: groups)) with (b0 :: b1 :: concat groups).
  change (skipn 1 (b0 :: b1 :: concat groups)) with (b1 :: concat groups).
  split.
  - change (Np.stride2 (b0 :: b1 :: concat groups))
      with (b0 :: Np.stride2 (concat groups)).
    now rewrite IH0.
  - now rewrite stride2_skip_cons, IH1.
Qed.

Lemma qpsk_modulate (groups : list (list Z)) :
  Forall (fun g => length g = 2%nat) groups ->
  modulate QPSK (concat groups) = Ok (map qpsk_point groups).
Proof.
  intros Hf. destruct (qpsk_strides Hf) as [H0 H1].
  unfold modulate. rewrite H0, H1, !map_map.
  unfold Np.broadcast2. rewrite !length_map, Nat.eqb_refl.
  rewrite zip_with_map. cbn [bind]. now rewrite map_map.
Qed.

Lemma mapM_mapping (groups : list (list Z)) :
  Forall (fun g => length g = 4%nat /\ Forall is_bit g) groups ->
  exists vs,
    mapM (Dict.get tuple_eqb mapping) groups = Ok vs
    /\ Forall2 (fun g v => In (g, v) mapping_items) groups vs.
Proof.
  induction 1 as [| g groups [Hl Hb] _ [vs [IHm IHf]]].
  - exists []. split; constructor.
  - destruct (mapping_total Hl Hb) as [v Hv].
    exists (v :: vs). cbn [mapM].
    rewrite (mapping_get Hv), IHm. split; [reflexivity | now constructor].
Qed.

(** Modulation of a well-formed bit sequence never raises, and symbol [i]
    is what the scheme maps bit group [i] to. *)
Lemma modulate_groups (s : scheme) (groups : list (list Z)) :
  Forall (fun g => length g = k s /\ Forall is_bit g) groups ->
  exists syms,
    modulate s (concat groups) = Ok syms
    /\ Forall2 (fun g z => modulate s g = Ok [z]) groups syms.
Proof.
  intros Hf. destruct s.
  - exists (map (fun g => of_int (bpsk_symbol (nth 0 g 0%Z))) groups).
    cbn [modulate]. split.
    + f_equal. rewrite map_map.
      induction Hf as [| g groups [Hl _] _ IH]; [reflexivity |].
      destruct g as [| b [| ? ?]]; try discriminate.
      simpl. now rewrite IH.
    + induction Hf as [| g groups [Hl _] _ IH]; constructor; auto.
      destruct g as [| b [| ? ?]]; try discriminate. reflexivity.
  - exists (map qpsk_point groups). split.
    + apply qpsk_modulate. now apply uniform_weaken.
    + induction Hf as [| g groups [Hl _] _ IH]; constructor; auto.
      assert (H1 : Forall (fun g0 : list Z => length g0 = 2%nat) [g])
        by now constructor.
      apply qpsk_modulate in H1.
      cbn [concat map] in H1. now rewrite app_nil_r in H1.
  - destruct (mapM_mapping Hf) as [vs [Hm Hall]].
    exists (map (fun z => div z (of_real (sqrt 10))) vs). split.
    + cbn [modulate].
      rewrite reshape_concat;
        [| discriminate | now apply (@uniform_weaken 4)].
      cbn [bind]. rewrite Hm. reflexivity.
    + clear Hm Hf.
      induction Hall as [| g v groups vs Hv _ IH]; constructor; auto.
      destruct (mapping_entry_bits Hv) as [Hl _].
      assert (H1 : Np.reshape 4 (concat [g]) = Ok [g])
        by (apply reshape_concat; [discriminate | now constructor]).
      cbn [concat] in H1. rewrite app_nil_r in H1.
      cbn [modulate k]. rewrite H1.
      cbn [bind mapM]. rewrite (mapping_get Hv). reflexivity.
Qed.

Lemma Forall2_length_eq (A B : Type) (P : A -> B -> Prop)
      (l : list A) (l' : list B) :
  Forall2 P l l' -> length l = length l'.
Proof.
  induction 1; simpl; congruence.
Qed.

(** ** The channel *)

Lemma seq_from (a n : nat) : seq a n = map (fun i => (a + i)%nat) (seq 0 n).
Proof.
  revert a. induction n as [| n IH]; intros a; [reflexivity |].
  cbn [seq map]. rewrite Nat.add_0_r. f_equal.
  rewrite (IH (S a)), (IH 1%nat), map_map.
  apply map_ext. intros i. lia.
Qed.

Lemma zip_with_map_r (A B C D : Type) (f : A -> B -> C) (h : D -> B)
      (xs : list A) (l : list D) :
  Np.zip_with f xs (map h l) = Np.zip_with (fun x i => f x (h i)) xs l.
Proof.
  revert l. induction xs as [| x xs IH]; intros [| i l]; simpl; congruence.
Qed.

Lemma zip_with_length (A B C : Type) (f : A -> B -> C)
      (xs : list A) (ys : list B) :
  length xs = length ys -> length (Np.zip_with f xs ys) = length xs.
Proof.
  revert ys. induction xs as [| x xs IH]; intros [| y ys] H;
    simpl in *; try congruence.
  now rewrite IH by congruence.
Qed.

Lemma zip_with_const_r (A B : Type) (f : A -> B -> A) (xs : list A)
      (l : list B) :
  length xs = length l -> (forall x i, f x i = x) ->
  Np.zip_with f xs l = xs.
Proof.
  revert l. induction xs as [| x xs IH]; intros [| i l] Hlen Hf;
    simpl in *; try congruence.
  rewrite Hf, IH; auto.
Qed.

Lemma complex_noise_unfold (sigma2 : R) (n : nat) (g : rng) :
  complex_noise sigma2 n g
  = (map (noise_sample sigma2 g n) (seq 0 n),
     mkRng (stream g) (pos g + n + n)).
Proof.
  unfold complex_noise, randn. cbn [stream pos]. f_equal.
  rewrite (seq_from (pos g)), (seq_from (pos g + n)), !map_map.
  rewrite zip_with_map, map_map.
  apply map_ext. intros i.
  rewrite add_of_real_imag, mul_of_real_l. reflexivity.
Qed.

Lemma channel_unfold (s : scheme) (EbN0_dB : R) (syms : list complex)
      (g : rng) :
  channel s EbN0_dB syms g
  = (Np.zip_with
       (fun z i =>
          add z (noise_sample (noise_variance s EbN0_dB) g (length syms) i))
       syms (seq 0 (length syms)),
     mkRng (stream g) (pos g + length syms + length syms)).
Proof.
  unfold channel. rewrite complex_noise_unfold.
  now rewrite zip_with_map_r.
Qed.

Lemma channel_length (s : scheme) (EbN0_dB : R) (syms : list complex)
      (g : rng) :
  length (fst (channel s EbN0_dB syms g)) = length syms.
Proof.
  rewrite channel_unfold. cbn [fst].
  apply zip_with_length. now rewrite length_seq.
Qed.

Lemma channel_noiseless (s : scheme) (EbN0_dB : R) (syms : list complex)
      (g : rng) :
  (forall i, stream g i = 0) ->
  fst (channel s EbN0_dB syms g) = syms.
Proof.
  intros Hzero. rewrite channel_unfold. cbn [fst].
  apply zip_with_const_r; [now rewrite length_seq |].
  intros z i. unfold noise_sample. rewrite !Hzero, !Rmult_0_r.
  apply add_zero_r.
Qed.

(** ** One trial *)

Lemma trial_unfold (s : scheme) (EbN0_dB : R) (bits : list Z) (g : rng)
      (syms : list complex) :
  modulate s bits = Ok syms ->
  trial s EbN0_dB bits g
  = (received_bits <-
       demodulate s (length bits) (fst (channel s EbN0_dB syms g)) ;;
     Ok (received_bits, snd (channel s EbN0_dB syms g))).
Proof.
  intros Hm. unfold trial. rewrite Hm. cbn [bind].
  destruct (channel s EbN0_dB syms g). reflexivity.
Qed.

Lemma concat_slice (A : Type) (n i : nat) (groups : list (list A))
      (g : list A) :
  Forall (fun g => length g = n) groups ->
  nth_error groups i = Some g ->
  firstn n (skipn (n * i) (concat groups)) = g.
Proof.
  intros Hf. revert i. induction Hf as [| g0 groups Hg _ IH]; intros i Hi.
  - destruct i; discriminate.
  - destruct i as [| i]; cbn [nth_error concat] in *.
    + injection Hi as ->. rewrite Nat.mul_0_r. cbn [skipn].
      rewrite firstn_app, Hg, Nat.sub_diag, firstn_all2 by lia.
      cbn [firstn]. apply app_nil_r.
    + replace (n * S i)%nat with (length g0 + n * i)%nat by lia.
      rewrite skipn_app, skipn_all2 by lia.
      replace (length g0 + n * i - length g0)%nat with (n * i)%nat by lia.
      cbn [app]. now apply IH.
Qed.

(** ** Mapping one group and deciding its symbol *)

Lemma lt0_int_div_pos (x r : R) :
  0 < r -> Np.lt0_int (x / r) = Np.lt0_int x.
Proof.
  intros Hr. unfold Np.lt0_int, Np.Rltb.
  assert (Hinv : 0 < / r) by now apply Rinv_0_lt_compat.
  unfold Rdiv.
  destruct (Rlt_dec (x * / r) 0) as [H1 | H1], (Rlt_dec x 0) as [H2 | H2];
    try reflexivity; exfalso.
  - apply H2. nra.
  - apply H1. nra.
Qed.

Lemma lt0_int_IZR (z : Z) : Np.lt0_int (IZR z) = Z.b2z (z <? 0)%Z.
Proof.
  unfold Np.lt0_int, Np.Rltb.
  destruct (Rlt_dec (IZR z) 0) as [H | H], (Z.ltb_spec z 0) as [H' | H'];
    try reflexivity; exfalso.
  - apply lt_IZR in H. lia.
  - apply H. now apply IZR_lt.
Qed.

Lemma sqrt2_pos : 0 < sqrt 2.
Proof. apply sqrt_lt_R0. lra. Qed.

Lemma qpsk_point_unfold (g : list Z) :
  qpsk_point g
  = mkC (IZR (qpsk_level (nth 0 g 0%Z)) / sqrt 2)
        (IZR (qpsk_level (nth 1 g 0%Z)) / sqrt 2).
Proof.
  unfold qpsk_point. rewrite div_of_real by apply sqrt2_neq_0.
  unfold of_int. rewrite add_of_real_imag. reflexivity.
Qed.

Lemma qpsk_decide_level (b : Z) :
  is_bit b -> Np.lt0_int (IZR (qpsk_level b) / sqrt 2) = b.
Proof.
  intros Hb. rewrite lt0_int_div_pos by apply sqrt2_pos.
  rewrite lt0_int_IZR. destruct Hb as [-> | ->]; reflexivity.
Qed.

Lemma modulate_one_qam16 (g : list Z) (z : complex) :
  length g = 4%nat -> Forall is_bit g -> modulate QAM16 g = Ok [z] ->
  exists v, In (g, v) mapping_items /\ z = div v (of_real (sqrt 10)).
Proof.
  intros Hl Hb Hm.
  destruct (mapping_total Hl Hb) as [v Hv]. exists v. split; [exact Hv |].
  assert (H1 : Np.reshape 4 (concat [g]) = Ok [g])
    by (apply reshape_concat; [discriminate | now constructor]).
  cbn [concat] in H1. rewrite app_nil_r in H1.
  cbn [modulate k] in Hm. rewrite H1 in Hm. cbn [bind mapM] in Hm.
  rewrite (mapping_get Hv) in Hm. cbn [bind map] in Hm. congruence.
Qed.

(** For QPSK and 16-QAM, deciding the symbol a bit group was mapped to
    gives the group back. *)
Lemma symbol_roundtrip (s : scheme) (g : list Z) (z : complex) :
  s <> BPSK -> length g = k s -> Forall is_bit g ->
  modulate s g = Ok [z] -> demodulate s (k s) [z] = Ok g.
Proof.
  intros Hs Hl Hb Hm. destruct s; [congruence | |].
  - assert (H1 : Forall (fun g0 : list Z => length g0 = 2%nat) [g])
      by now constructor.
    apply qpsk_modulate in H1. cbn [concat map] in H1.
    rewrite app_nil_r, Hm in H1. injection H1 as ->.
    change (k QPSK) with (2 * length [qpsk_point g])%nat.
    rewrite qpsk_demodulate. cbn [map concat app].
    rewrite qpsk_point_unfold. cbn [re im].
    destruct g as [| b0 [| b1 [| ? ?]]]; try discriminate.
    inversion Hb as [| ? ? Hb0 Hb']; subst.
    inversion Hb' as [| ? ? Hb1 _]; subst.
    cbn [nth]. now rewrite !qpsk_decide_level.
  - destruct (modulate_one_qam16 Hl Hb Hm) as [v [Hv ->]].
    destruct (qam16_decide_spec (div v (of_real (sqrt 10))))
      as [g' [v' [Hv' [Hdec Hmin]]]].
    cbn [demodulate qam16_loop]. rewrite Hdec. cbn [bind app].
    f_equal.
    assert (Hd : abs (sub (div v (of_real (sqrt 10)))
                          (div v' (of_real (sqrt 10)))) = 0).
    { apply Rle_antisym; [| apply abs_nonneg].
      rewrite <- (abs_sub_self (div v (of_real (sqrt 10)))).
      apply Hmin. apply (in_map snd) in Hv. exact Hv. }
    apply abs_zero, sub_zero_eq in Hd.
    apply div_of_real_inj in Hd; [| apply sqrt10_neq_0]. subst v'.
    eapply nodup_snd_functional;
      [apply mapping_values_nodup | exact Hv' | exact Hv].
Qed.

(** The BPSK branch maps a bit to the opposite sign of the one its decision
    rule reads back. *)
Lemma bpsk_symbol_inverted (b : Z) :
  is_bit b ->
  modulate BPSK [b] = Ok [of_int (2 * b - 1)]
  /\ demodulate BPSK (k BPSK) [of_int (2 * b - 1)] = Ok [(1 - b)%Z].
Proof.
  intros Hb. cbn [modulate demodulate map].
  rewrite (bpsk_symbol_bit Hb). split; [reflexivity |].
  unfold of_int, of_real. cbn [re]. rewrite lt0_int_IZR.
  destruct Hb as [-> | ->]; reflexivity.
Qed.

Lemma groups_roundtrip (s : scheme) (groups groups' : list (list Z))
      (syms : list complex) :
  s <> BPSK ->
  Forall (fun g => length g = k s /\ Forall is_bit g) groups ->
  Forall2 (fun g z => modulate s g = Ok [z]) groups syms ->
  Forall2 (fun z g => demodulate s (k s) [z] = Ok g
                      /\ length g = k s /\ Forall is_bit g) syms groups' ->
  groups' = groups.
Proof.
  intros Hs Hf Hm. revert groups'.
  induction Hm as [| g z groups syms Hg Hm IH]; intros groups' Hd.
  - inversion Hd. reflexivity.
  - inversion Hd as [| ? g' ? groups'' [Hz _] Hd']; subst.
    inversion Hf as [| ? ? [Hl Hb] Hf']; subst.
    rewrite (symbol_roundtrip Hs Hl Hb Hg) in Hz.
    injection Hz as <-. f_equal. now apply IH.
Qed.

(** Without noise, QPSK and 16-QAM recover the transmitted bits. *)
Lemma noiseless_roundtrip (s : scheme) (EbN0_dB : R) (bits : list Z)
      (g : rng) :
  s <> BPSK ->
  (length bits mod k s = 0)%nat -> Forall is_bit bits ->
  (forall i, stream g i = 0) ->
  exists g', trial s EbN0_dB bits g = Ok (bits, g').
Proof.
  intros Hs Hmod Hbits Hzero.
  destruct (@split_groups (k s) bits) as [groups [-> Hf]]; auto.
  { destruct s; cbn [k]; lia. }
  destruct (modulate_groups s Hf) as [syms [Hm Hall]].
  rewrite (@trial_unfold s EbN0_dB _ g syms Hm).
  rewrite channel_noiseless by assumption.
  rewrite (@length_concat_uniform Z (k s) groups) by now apply uniform_weaken.
  rewrite (Forall2_length_eq Hall).
  destruct (demodulate_groups s syms) as [groups' [Hd Hall']].
  rewrite Hd. cbn [bind].
  rewrite (groups_roundtrip Hs Hf Hall Hall'). eauto.
Qed.

(** Without noise, BPSK returns every bit flipped. *)
Lemma bpsk_noiseless_flips (EbN0_dB : R) (bits : list Z) (g : rng) :
  Forall is_bit bits -> (forall i, stream g i = 0) ->
  exists g',
    trial BPSK EbN0_dB bits g = Ok (map (fun b => (1 - b)%Z) bits, g').
Proof.
  intros Hbits Hzero.
  rewrite (@trial_unfold BPSK EbN0_dB bits g
             (map of_int (map bpsk_symbol bits)) eq_refl).
  rewrite channel_noiseless by assumption.
  cbn [demodulate bind]. rewrite !map_map.
  eexists. f_equal. f_equal.
  apply map_ext_in. intros b Hb.
  rewrite Forall_forall in Hbits. specialize (Hbits b Hb).
  rewrite (bpsk_symbol_bit Hbits).
  unfold of_int, of_real. cbn [re]. rewrite lt0_int_IZR.
  destruct Hbits as [-> | ->]; reflexivity.
Qed.

Lemma forallb_is_bit (l : list Z) :
  forallb is_bitb l = true -> Forall is_bit l.
Proof.
  intros H. apply Forall_forall. intros b Hb.
  rewrite forallb_forall in H. specialize (H b Hb).
  unfold is_bitb in H. apply orb_true_iff in H.
  destruct H as [H | H]; apply Z.eqb_eq in H; [now left | now right].
Qed.

Lemma Forall2_nth_error (A B : Type) (P : A -> B -> Prop)
      (l : list A) (l' : list B) (i : nat) (x : A) :
  Forall2 P l l' -> nth_error l i = Some x ->
  exists y, nth_error l' i = Some y /\ P x y.
Proof.
  intros H. revert i. induction H as [| a b l l' Hab _ IH]; intros i Hi.
  - destruct i; discriminate.
  - destruct i as [| i]; cbn [nth_error] in *.
    + injection Hi as ->. eauto.
    + now apply IH.
Qed.

Lemma Forall2_Forall_r (A B : Type) (P : A -> B -> Prop) (Q : B -> Prop)
      (l : list A) (l' : list B) :
  Forall2 P l l' -> (forall x y, P x y -> Q y) -> Forall Q l'.
Proof.
  intros H HPQ. induction H as [| x y l l' Hxy _ IH]; constructor; eauto.
Qed.

(** In binary64 the key of the reverse lookup is the table level itself,
    bit for bit, for each of the four levels. *)
Lemma binary64_lookup_key_exact :
  Binary64.exact Binary64.by_quotient = true
  /\ Binary64.exact Binary64.by_reciprocal = true.
Proof.
  split; vm_compute; reflexivity.
Qed.

(** * Main results *)

(** C1.  A noiseless round trip would return the transmitted bits for
    every scheme.  The BPSK branch does not: on the one-bit sequence [0],
    with every noise draw equal to zero, the trial returns the bit 1.
    ([noiseless_roundtrip] proves the round trip for QPSK and 16-QAM,
    [bpsk_noiseless_flips] that BPSK flips every bit.) *)
Theorem bpsk_noiseless_trial_returns_flipped_bit (EbN0_dB : R) :
  exists g',
    trial BPSK EbN0_dB [0%Z] silent = Ok ([1%Z], g')
    /\ [1%Z] <> [0%Z].
Proof.
  destruct (@bpsk_noiseless_flips EbN0_dB [0%Z] silent) as [g' H].
  - repeat constructor.
  - reflexivity.
  - exists g'. split; [exact H | discriminate].
Qed.

(** C2.  The comment on the BPSK mapper says bit 0 goes to +1 and bit 1 to
    -1.  The code computes [2 * bit - 1]: bit 0 becomes -1 and bit 1
    becomes +1. *)
Theorem bpsk_mapper_sends_zero_to_minus_one :
  modulate BPSK [0%Z; 1%Z] = Ok [mkC (-1) 0; mkC 1 0]
  /\ mkC (-1) 0 <> mkC 1 0.
Proof.
  split; [reflexivity |].
  intros H. inversion H. lra.
Qed.

(** C3.  Demodulation is total: for every scheme and every sequence of
    received symbols, with [nbits] the bit count those symbols stand for,
    the demodulator returns a bit sequence; and for every received symbol
    the 16-QAM branch finds a nearest point, reads it from the
    constellation, and finds its 4-bit group in the reverse table. *)
Theorem demodulation_total (s : scheme) (received_symbols : list complex) :
  (exists received_bits,
      demodulate s (k s * length received_symbols) received_symbols
      = Ok received_bits)
  /\ forall z : complex,
      exists i closest_point group,
        Np.argmin (map (fun c => abs (sub z c)) constellation) = Ok i
        /\ Np.index constellation i = Ok closest_point
        /\ Dict.get complex_eqb demapping
                    (mul closest_point (of_real (sqrt 10))) = Ok group.
Proof.
  split.
  - destruct (demodulate_groups s received_symbols) as [groups [H _]].
    eauto.
  - intros z.
    destruct (qam16_decide_spec z) as [g [v [_ [Hdec _]]]].
    unfold qam16_decide in Hdec.
    destruct (Np.argmin (map (fun c => abs (sub z c)) constellation))
      as [i | e] eqn:Hi; [| discriminate].
    cbn [bind] in Hdec.
    destruct (Np.index constellation i) as [c | e] eqn:Hc; [| discriminate].
    cbn [bind] in Hdec.
    exists i, c, g. repeat split; assumption.
Qed.

(** C10.  Every element of the recovered bit sequence is 0 or 1, for every
    scheme and every sequence of received symbols. *)
Theorem recovered_bits_are_binary (s : scheme)
        (received_symbols : list complex) :
  exists received_bits,
    demodulate s (k s * length received_symbols) received_symbols
    = Ok received_bits
    /\ Forall is_bit received_bits.
Proof.
  destruct (demodulate_groups s received_symbols) as [groups [H Hall]].
  exists (concat groups). split; [exact H |].
  apply Forall_concat.
  eapply Forall2_Forall_r; [exact Hall |]. now intros z g [_ [_ Hb]].
Qed.

(** C9.  For a bit sequence whose length is a multiple of the scheme's
    bits per symbol, the trial returns a recovered sequence of the same
    length, and its bit group [i] is what the demodulator decides for
    received symbol [i] alone. *)
Theorem recovered_length_and_order (s : scheme) (EbN0_dB : R)
        (transmitted_bits : list Z) (g : rng) :
  (length transmitted_bits mod k s = 0)%nat ->
  Forall is_bit transmitted_bits ->
  exists transmitted_symbols received_bits g',
    modulate s transmitted_bits = Ok transmitted_symbols
    /\ trial s EbN0_dB transmitted_bits g = Ok (received_bits, g')
    /\ length received_bits = length transmitted_bits
    /\ forall i z,
        nth_error (fst (channel s EbN0_dB transmitted_symbols g)) i = Some z ->
        demodulate s (k s) [z]
        = Ok (firstn (k s) (skipn (k s * i) received_bits)).
Proof.
  intros Hmod Hbits.
  destruct (@split_groups (k s) transmitted_bits) as [groups [-> Hf]]; auto.
  { destruct s; cbn [k]; lia. }
  destruct (modulate_groups s Hf) as [syms [Hm Hall]].
  pose proof (channel_length s EbN0_dB syms g) as Hlen.
  destruct (demodulate_groups s (fst (channel s EbN0_dB syms g)))
    as [groups' [Hd Hall']].
  rewrite Hlen in Hd.
  assert (Hu : Forall (fun g0 : list Z => length g0 = k s) groups').
  { eapply Forall2_Forall_r; [exact Hall' |]. now intros z g0 [_ [Hl _]]. }
  exists syms, (concat groups'), (snd (channel s EbN0_dB syms g)).
  split; [exact Hm |]. split; [| split].
  - rewrite (@trial_unfold s EbN0_dB _ g syms Hm).
    rewrite (@length_concat_uniform Z (k s) groups)
      by now apply uniform_weaken.
    rewrite (Forall2_length_eq Hall), Hd. reflexivity.
  - rewrite (length_concat_uniform Hu).
    rewrite (@length_concat_uniform Z (k s) groups)
      by now apply uniform_weaken.
    rewrite <- (Forall2_length_eq Hall'), Hlen.
    now rewrite (Forall2_length_eq Hall).
  - intros i z Hz.
    destruct (Forall2_nth_error i Hall' Hz) as [g0 [Hg0 [Hdz _]]].
    now rewrite (concat_slice i Hu Hg0).
Qed.

Lemma recovered_length_and_order_witness :
  exists transmitted_symbols received_bits g',
    modulate QAM16 [1; 0; 1; 1; 0; 0; 1; 0]%Z = Ok transmitted_symbols
    /\ trial QAM16 3 [1; 0; 1; 1; 0; 0; 1; 0]%Z silent
       = Ok (received_bits, g')
    /\ length received_bits = length [1; 0; 1; 1; 0; 0; 1; 0]%Z
    /\ forall i z,
        nth_error (fst (channel QAM16 3 transmitted_symbols silent)) i
        = Some z ->
        demodulate QAM16 (k QAM16) [z]
        = Ok (firstn (k QAM16) (skipn (k QAM16 * i) received_bits)).
Proof.
  apply (@recovered_length_and_order QAM16 3 [1; 0; 1; 1; 0; 0; 1; 0]%Z silent).
  - reflexivity.
  - apply forallb_is_bit. reflexivity.
Defined.

(** Evaluate the simulation on concrete bits, leaving real arithmetic
    alone. *)
Ltac run_on_bits :=
  cbv - [IZR Rdiv Rminus Rplus Rmult Ropp Rinv sqrt div of_real INR].

Ltac normalise_by root_neq_0 :=
  rewrite ?div_of_real by apply root_neq_0; cbn [re im].

(** C5.  The per-dimension noise variance is 1 / (2 k 10^(dB/10)), and the
    channel adds to symbol [i] a real and an imaginary noise term, each a
    separate draw scaled by the square root of that variance. *)
Theorem awgn_variance_and_elementwise_noise
        (s : scheme) (EbN0_dB : R) (transmitted_symbols : list complex)
        (g : rng) :
  noise_variance s EbN0_dB = 1 / (2 * INR (k s) * Rpower 10 (EbN0_dB / 10))
  /\ fst (channel s EbN0_dB transmitted_symbols g)
     = Np.zip_with
         (fun z i =>
            add z
                (mkC (sqrt (noise_variance s EbN0_dB) * stream g (pos g + i))
                     (sqrt (noise_variance s EbN0_dB)
                      * stream g (pos g + length transmitted_symbols + i))))
         transmitted_symbols (seq 0 (length transmitted_symbols))
  /\ length (fst (channel s EbN0_dB transmitted_symbols g))
     = length transmitted_symbols.
Proof.
  split; [| split].
  - unfold noise_variance, EsN0_linear, EbN0_linear.
    now rewrite Rmult_assoc.
  - rewrite channel_unfold. reflexivity.
  - apply channel_length.
Qed.

(** C8.  The 16-QAM mapper sends (0,0,0,0) to (-3-3j)/sqrt 10 and (1,1,1,1)
    to (1+1j)/sqrt 10; the table has one entry for each of the 16 bit
    groups; the mapper sends the key of every entry to the entry's value
    divided by sqrt 10; and every bit group goes to its point of the 4 x 4
    grid with levels -3, -1, 1, 3. *)
Theorem qam16_table_fidelity :
  modulate QAM16 [0; 0; 0; 0]%Z = Ok [mkC (-3 / sqrt 10) (-3 / sqrt 10)]
  /\ modulate QAM16 [1; 1; 1; 1]%Z = Ok [mkC (1 / sqrt 10) (1 / sqrt 10)]
  /\ map fst (Dict.items mapping) = all_groups 4
  /\ Forall (fun kv =>
               modulate QAM16 (fst kv)
               = Ok [mkC (re (snd kv) / sqrt 10) (im (snd kv) / sqrt 10)])
            (Dict.items mapping)
  /\ Forall (fun g => modulate QAM16 g = Ok [grid_point g]) (all_groups 4).
Proof.
  repeat split.
  - run_on_bits. normalise_by sqrt10_neq_0. reflexivity.
  - run_on_bits. normalise_by sqrt10_neq_0. reflexivity.
  - unfold Dict.items. rewrite mapping_unfold.
    repeat constructor; run_on_bits; normalise_by sqrt10_neq_0; reflexivity.
  - cbn [all_groups map app].
    repeat constructor; run_on_bits; normalise_by sqrt10_neq_0; reflexivity.
Qed.

(** ** Energy *)

Lemma mean_energy_scaled (r : R) (vs : list complex) :
  r <> 0 ->
  mean_energy (map (fun v => div v (of_real r)) vs)
  = fold_right Rplus 0 (map norm2 vs) / (r * r) / INR (length vs).
Proof.
  intros Hr. unfold mean_energy. rewrite length_map. f_equal.
  induction vs as [| v vs IH]; cbn [map fold_right].
  - unfold Rdiv. ring.
  - rewrite IH, norm2_div_of_real by assumption. field. assumption.
Qed.

Lemma sqrt2_sqr : sqrt 2 * sqrt 2 = 2.
Proof. apply sqrt_sqrt. lra. Qed.

Lemma sqrt10_sqr : sqrt 10 * sqrt 10 = 10.
Proof. apply sqrt_sqrt. lra. Qed.

Lemma modulate_all_bpsk :
  modulate BPSK (concat (all_groups 1)) = Ok [mkC (-1) 0; mkC 1 0].
Proof. reflexivity. Qed.

Lemma modulate_all_qpsk :
  modulate QPSK (concat (all_groups 2))
  = Ok (map (fun v => div v (of_real (sqrt 2)))
            [mkC 1 1; mkC 1 (-1); mkC (-1) 1; mkC (-1) (-1)]).
Proof.
  rewrite qpsk_modulate by (repeat constructor).
  cbn [all_groups map app]. unfold qpsk_point, of_int.
  rewrite !add_of_real_imag. reflexivity.
Qed.

Lemma modulate_all_qam16 :
  modulate QAM16 (concat (all_groups 4))
  = Ok (map (fun v => div v (of_real (sqrt 10))) (map snd mapping_items)).
Proof. reflexivity. Qed.

(** C4.  For every scheme, the mean of the squared magnitudes of the
    points that the mapper assigns to the 2^k bit groups is exactly 1. *)
Theorem constellation_mean_energy_is_one (s : scheme) :
  exists pts,
    modulate s (concat (all_groups (k s))) = Ok pts
    /\ length pts = (2 ^ k s)%nat
    /\ mean_energy pts = 1.
Proof.
  destruct s; cbn [k].
  - eexists. split; [apply modulate_all_bpsk |]. split; [reflexivity |].
    unfold mean_energy, norm2. cbn [map fold_right length re im INR]. lra.
  - eexists. split; [apply modulate_all_qpsk |]. split; [reflexivity |].
    rewrite mean_energy_scaled by apply sqrt2_neq_0. rewrite sqrt2_sqr.
    unfold norm2. cbn [map fold_right length re im INR]. lra.
  - eexists. split; [apply modulate_all_qam16 |]. split; [reflexivity |].
    rewrite mean_energy_scaled by apply sqrt10_neq_0. rewrite sqrt10_sqr.
    unfold norm2, mapping_items.
    cbn [map fold_right length re im snd INR]. lra.
Qed.

(** ** One group, one point *)

Lemma modulate_one (s : scheme) (g : list Z) :
  length g = k s -> Forall is_bit g -> exists z, modulate s g = Ok [z].
Proof.
  intros Hl Hb.
  assert (Hf : Forall (fun g0 => length g0 = k s /\ Forall is_bit g0) [g])
    by (constructor; auto).
  destruct (modulate_groups s Hf) as [syms [Hm Hall]].
  cbn [concat] in Hm. rewrite app_nil_r in Hm.
  inversion Hall as [| ? z ? ? _ Hnil]; subst. inversion Hnil; subst.
  now exists z.
Qed.

Lemma modulate_one_inj (s : scheme) (g1 g2 : list Z) (z : complex) :
  length g1 = k s -> Forall is_bit g1 ->
  length g2 = k s -> Forall is_bit g2 ->
  modulate s g1 = Ok [z] -> modulate s g2 = Ok [z] -> g1 = g2.
Proof.
  intros Hl1 Hb1 Hl2 Hb2 Hm1 Hm2.
  destruct s.
  - destruct g1 as [| b1 [| ? ?]]; try discriminate.
    destruct g2 as [| b2 [| ? ?]]; try discriminate.
    inversion Hb1 as [| ? ? Hbit1 _]; subst.
    inversion Hb2 as [| ? ? Hbit2 _]; subst.
    cbn [modulate map] in Hm1, Hm2.
    rewrite (bpsk_symbol_bit Hbit1) in Hm1.
    rewrite (bpsk_symbol_bit Hbit2) in Hm2.
    rewrite <- Hm2 in Hm1. unfold of_int, of_real in Hm1.
    injection Hm1 as Hm1. apply eq_IZR in Hm1.
    destruct Hbit1 as [-> | ->], Hbit2 as [-> | ->];
      try reflexivity; exfalso; cbn in Hm1; lia.
  - assert (H1 : demodulate QPSK (k QPSK) [z] = Ok g1)
      by (apply symbol_roundtrip; auto; discriminate).
    assert (H2 : demodulate QPSK (k QPSK) [z] = Ok g2)
      by (apply symbol_roundtrip; auto; discriminate).
    congruence.
  - assert (H1 : demodulate QAM16 (k QAM16) [z] = Ok g1)
      by (apply symbol_roundtrip; auto; discriminate).
    assert (H2 : demodulate QAM16 (k QAM16) [z] = Ok g2)
      by (apply symbol_roundtrip; auto; discriminate).
    congruence.
Qed.

Lemma Forall2_In_r (A B : Type) (P : A -> B -> Prop)
      (l : list A) (l' : list B) (y : B) :
  Forall2 P l l' -> In y l' -> exists x, In x l /\ P x y.
Proof.
  induction 1 as [| a b l l' Hab _ IH]; intros Hin.
  - contradiction.
  - destruct Hin as [<- | Hin].
    + exists a. split; [now left | exact Hab].
    + destruct (IH Hin) as [x [Hx Hxy]]. exists x. split; [now right | auto].
Qed.

Lemma Forall2_nodup (A B : Type) (P : A -> B -> Prop)
      (l : list A) (l' : list B) :
  Forall2 P l l' -> NoDup l ->
  (forall a b y, In a l -> In b l -> P a y -> P b y -> a = b) ->
  NoDup l'.
Proof.
  induction 1 as [| a b l l' Hab Hall IH]; intros Hnd Hinj.
  - constructor.
  - inversion Hnd as [| ? ? Hnotin Hnd']; subst. constructor.
    + intros Hin.
      destruct (@Forall2_In_r _ _ _ _ _ b Hall Hin) as [x [Hx Hxb]].
      apply Hnotin.
      rewrite (Hinj a x b); auto; [now left | now right].
    + apply IH; auto.
      intros a0 b0 y Ha0 Hb0. apply Hinj; now right.
Qed.

Lemma all_groups_nodup (s : scheme) : NoDup (all_groups (k s)).
Proof.
  destruct s; cbn [k all_groups map app];
    repeat (constructor; [simpl; intuition congruence |]); constructor.
Qed.

Lemma all_groups_wf (n : nat) :
  Forall (fun g => length g = n /\ Forall is_bit g) (all_groups n).
Proof.
  apply Forall_forall. intros g Hg. now apply all_groups_sound.
Qed.

(** C7.  For every scheme the map from bit groups to constellation points
    is a bijection onto 2^k points: every group has a point, two groups
    with the same point are the same group, and the points of the 2^k
    groups are pairwise distinct. *)
Theorem symbol_map_bijective (s : scheme) (g1 g2 : list Z) :
  length g1 = k s -> Forall is_bit g1 ->
  length g2 = k s -> Forall is_bit g2 ->
  (exists z1 z2,
      modulate s g1 = Ok [z1] /\ modulate s g2 = Ok [z2]
      /\ (z1 = z2 -> g1 = g2))
  /\ exists pts,
      modulate s (concat (all_groups (k s))) = Ok pts
      /\ length pts = (2 ^ k s)%nat
      /\ NoDup pts.
Proof.
  intros Hl1 Hb1 Hl2 Hb2. split.
  - destruct (@modulate_one s g1 Hl1 Hb1) as [z1 Hz1].
    destruct (@modulate_one s g2 Hl2 Hb2) as [z2 Hz2].
    exists z1, z2. repeat split; auto.
    intros ->. now apply (@modulate_one_inj s g1 g2 z2).
  - destruct (modulate_groups s (all_groups_wf (k s))) as [pts [Hm Hall]].
    exists pts. split; [exact Hm |]. split.
    + now rewrite <- (Forall2_length_eq Hall), all_groups_length.
    + apply (@Forall2_nodup _ _ _ _ _ Hall (all_groups_nodup s)).
      intros a b y Ha Hb Hay Hby.
      destruct (@all_groups_sound _ _ Ha) as [Hla Hba].
      destruct (@all_groups_sound _ _ Hb) as [Hlb Hbb].
      now apply (@modulate_one_inj s a b y).
Qed.

Lemma symbol_map_bijective_witness :
  (exists z1 z2,
      modulate QAM16 [0; 1; 1; 0]%Z = Ok [z1]
      /\ modulate QAM16 [1; 1; 0; 0]%Z = Ok [z2]
      /\ (z1 = z2 -> [0; 1; 1; 0]%Z = [1; 1; 0; 0]%Z))
  /\ exists pts,
      modulate QAM16 (concat (all_groups (k QAM16))) = Ok pts
      /\ length pts = (2 ^ k QAM16)%nat
      /\ NoDup pts.
Proof.
  apply (@symbol_map_bijective QAM16 [0; 1; 1; 0]%Z [1; 1; 0; 0]%Z).
  - reflexivity.
  - apply forallb_is_bit. reflexivity.
  - reflexivity.
  - apply forallb_is_bit. reflexivity.
Defined.

(** ** Bit counts that the scheme's symbol width does not divide *)

Lemma broadcast2_raises (A B C : Type) (f : A -> B -> C)
      (xs : list A) (ys : list B) (e : exn) :
  Np.broadcast2 f xs ys = Raise e -> e = ValueError.
Proof.
  unfold Np.broadcast2.
  destruct (length xs =? length ys)%nat; [discriminate |].
  destruct xs as [| x [| x' xs]]; destruct ys as [| y [| y' ys]];
    intros H; try discriminate; congruence.
Qed.

Lemma assign_stride2_raises (A : Type) (start : nat) (a v : list A)
      (e : exn) :
  Np.assign_stride2 start a v = Raise e -> e = ValueError.
Proof.
  unfold Np.assign_stride2.
  destruct (length v =? length (Np.stride2 (skipn start a)))%nat;
    [discriminate |].
  destruct v as [| x [| x' v]]; cbn [bind]; intros H;
    try discriminate; congruence.
Qed.

Lemma assign_stride2_misfit (A : Type) (start : nat) (a v : list A) :
  length v <> Nat.div2 (S (length a - start)) -> length v <> 1%nat ->
  Np.assign_stride2 start a v = Raise ValueError.
Proof.
  intros Hfit Hone. unfold Np.assign_stride2.
  rewrite stride2_length, length_skipn.
  rewrite (proj2 (Nat.eqb_neq _ _) Hfit).
  destruct v as [| x [| x' v]]; try reflexivity.
  now contradiction Hone.
Qed.

Lemma assign_stride2_length (A : Type) (start : nat) (a v r : list A) :
  Np.assign_stride2 start a v = Ok r -> length r = length a.
Proof.
  unfold Np.assign_stride2.
  destruct (length v =? length (Np.stride2 (skipn start a)))%nat.
  - cbn [bind]. intros H. injection H as <-.
    rewrite length_app, put2_length, <- length_app, firstn_skipn.
    reflexivity.
  - destruct v as [| x [| x' v]]; cbn [bind]; intros H;
      try discriminate.
    injection H as <-.
    rewrite length_app, put2_length, <- length_app, firstn_skipn.
    reflexivity.
Qed.

(** QPSK demodulation of a number of symbols that fits neither strided
    slice of the bit array. *)
Lemma qpsk_demodulate_misfit (nbits : nat) (rs : list complex) :
  length rs <> 1%nat ->
  length rs <> Nat.div2 (S nbits) \/ length rs <> Nat.div2 (S (nbits - 1)) ->
  demodulate QPSK nbits rs = Raise ValueError.
Proof.
  intros Hone Hfit. cbn [demodulate].
  destruct Hfit as [Hfit | Hfit].
  - rewrite assign_stride2_misfit; [reflexivity | | now rewrite length_map].
    unfold Np.empty. now rewrite length_map, repeat_length, Nat.sub_0_r.
  - destruct (Np.assign_stride2 0 (Np.empty nbits)
                (map (fun z => Np.lt0_int (re z)) rs)) as [r0 | e] eqn:H0.
    + cbn [bind]. apply assign_stride2_length in H0.
      unfold Np.empty in H0. rewrite repeat_length in H0.
      apply assign_stride2_misfit; rewrite length_map; [| exact Hone].
      now rewrite H0.
    + cbn [bind]. apply assign_stride2_raises in H0. now subst.
Qed.

Lemma odd_length (n : nat) :
  (n mod 2 <> 0)%nat -> exists m, n = (2 * m + 1)%nat.
Proof.
  intros H. exists (n / 2)%nat.
  pose proof (Nat.div_mod_eq n 2) as Hd.
  pose proof (Nat.mod_upper_bound n 2) as Hu. lia.
Qed.

Lemma broadcast2_off_by_one (A B C : Type) (f : A -> B -> C)
      (xs : list A) (ys : list B) (zs : list C) :
  length xs = S (length ys) -> Np.broadcast2 f xs ys = Ok zs ->
  length zs <> 1%nat.
Proof.
  intros Hlen. unfold Np.broadcast2.
  rewrite (proj2 (Nat.eqb_neq (length xs) (length ys))) by lia.
  destruct xs as [| x [| x' xs]]; destruct ys as [| y [| y' ys]];
    cbn [length] in Hlen; try lia; intros H; try discriminate;
    injection H as <-; cbn [map length]; lia.
Qed.

Lemma qpsk_trial_odd (EbN0_dB : R) (bits : list Z) (g : rng) :
  (length bits mod 2 <> 0)%nat ->
  trial QPSK EbN0_dB bits g = Raise ValueError.
Proof.
  intros Hodd. destruct (@odd_length _ Hodd) as [m Hm].
  assert (Hx : length (Np.stride2 bits) = S m).
  { rewrite stride2_length, Hm.
    replace (S (2 * m + 1)) with (2 * S m)%nat by lia.
    apply Nat.div2_double. }
  assert (Hy : length (Np.stride2 (skipn 1 bits)) = m).
  { rewrite stride2_length, length_skipn, Hm.
    replace (S (2 * m + 1 - 1)) with (S (2 * m)) by lia.
    apply Nat.div2_succ_double. }
  assert (H0 : Nat.div2 (S (length bits)) = S m).
  { rewrite Hm. replace (S (2 * m + 1)) with (2 * S m)%nat by lia.
    apply Nat.div2_double. }
  assert (H1 : Nat.div2 (S (length bits - 1)) = m).
  { rewrite Hm. replace (S (2 * m + 1 - 1)) with (S (2 * m)) by lia.
    apply Nat.div2_succ_double. }
  unfold trial.
  destruct (modulate QPSK bits) as [syms | e] eqn:Hmod.
  - cbn [bind].
    pose proof (channel_length QPSK EbN0_dB syms g) as Hlen.
    destruct (channel QPSK EbN0_dB syms g) as [received g'].
    cbn [fst] in Hlen.
    rewrite qpsk_demodulate_misfit; [reflexivity | |]; rewrite Hlen.
    + cbn [modulate] in Hmod.
      destruct (Np.broadcast2 _ _ _) as [zs | e'] eqn:Hb in Hmod;
        [| discriminate].
      cbn [bind] in Hmod. injection Hmod as <-. rewrite length_map.
      eapply broadcast2_off_by_one; [| exact Hb].
      rewrite !length_map. lia.
    + rewrite H0, H1. lia.
  - cbn [bind]. cbn [modulate] in Hmod.
    destruct (Np.broadcast2 _ _ _) as [zs | e'] eqn:Hb in Hmod;
      [discriminate |].
    apply broadcast2_raises in Hb. cbn [bind] in Hmod. congruence.
Qed.

Lemma qam16_trial_indivisible (EbN0_dB : R) (bits : list Z) (g : rng) :
  (length bits mod 4 <> 0)%nat ->
  trial QAM16 EbN0_dB bits g = Raise ValueError.
Proof.
  intros Hmod. unfold trial. cbn [modulate k]. unfold Np.reshape.
  now rewrite (proj2 (Nat.eqb_neq _ _) Hmod).
Qed.

(** When the bit count is not a multiple of 4, no scheme's trial raises
    anything but [ValueError]. *)
Lemma trial_raises_value_error (s : scheme) (EbN0_dB : R) (bits : list Z)
      (g : rng) (e : exn) :
  (length bits mod 4 <> 0)%nat ->
  trial s EbN0_dB bits g = Raise e -> e = ValueError.
Proof.
  intros Hmod. destruct s.
  - unfold trial. cbn [modulate bind].
    destruct (channel BPSK EbN0_dB _ g) as [received g'].
    cbn [demodulate bind]. discriminate.
  - unfold trial.
    destruct (modulate QPSK bits) as [syms | e0] eqn:Hm; cbn [bind].
    + destruct (channel QPSK EbN0_dB syms g) as [received g'].
      cbn [demodulate].
      destruct (Np.assign_stride2 0 _ _) as [r0 | e0] eqn:H0; cbn [bind].
      * destruct (Np.assign_stride2 1 r0 _) as [r1 | e1] eqn:H1;
          cbn [bind]; [discriminate |].
        apply assign_stride2_raises in H1. congruence.
      * apply assign_stride2_raises in H0. congruence.
    + cbn [modulate] in Hm.
      destruct (Np.broadcast2 _ _ _) as [zs | e'] eqn:Hb in Hm;
        [discriminate |].
      apply broadcast2_raises in Hb. cbn [bind] in Hm. congruence.
  - rewrite qam16_trial_indivisible by assumption. congruence.
Qed.

Lemma run_schemes_raises (schemes : list scheme) (s : scheme)
      (EbN0_dB : R) (bits : list Z) (g : rng) :
  (length bits mod 4 <> 0)%nat ->
  In s schemes ->
  (forall g0, trial s EbN0_dB bits g0 = Raise ValueError) ->
  run_schemes schemes EbN0_dB bits g = Raise ValueError.
Proof.
  intros Hmod Hin Hs. revert g.
  induction schemes as [| s0 rest IH]; intros g; [contradiction |].
  cbn [run_schemes].
  destruct (trial s0 EbN0_dB bits g) as [r | e] eqn:Ht; cbn [bind].
  - destruct Hin as [-> | Hin]; [rewrite Hs in Ht; discriminate |].
    now rewrite IH.
  - apply trial_raises_value_error in Ht; [now subst | exact Hmod].
Qed.

Lemma indivisible_by_4 (s : scheme) (n : nat) :
  (n mod k s <> 0)%nat -> (n mod 4 <> 0)%nat.
Proof.
  destruct s; cbn [k]; intros H.
  - rewrite Nat.mod_1_r in H. congruence.
  - pose proof (Nat.div_mod_eq n 2). pose proof (Nat.div_mod_eq n 4).
    pose proof (Nat.mod_upper_bound n 2). lia.
  - exact H.
Qed.

(** C6.  When the bit count is not a multiple of the scheme's bits per
    symbol, the scheme's trial raises [ValueError] (Python's error for an
    invalid argument) instead of returning bits, and so does the loop over
    any list of schemes that contains it. *)
Theorem indivisible_bit_count_raises (s : scheme) (EbN0_dB : R)
        (transmitted_bits : list Z) (g : rng) (schemes : list scheme) :
  (length transmitted_bits mod k s <> 0)%nat ->
  trial s EbN0_dB transmitted_bits g = Raise ValueError
  /\ (In s schemes ->
      run_schemes schemes EbN0_dB transmitted_bits g = Raise ValueError).
Proof.
  intros Hmod.
  assert (Hs : forall g0, trial s EbN0_dB transmitted_bits g0
                          = Raise ValueError).
  { intros g0. destruct s; cbn [k] in Hmod.
    - rewrite Nat.mod_1_r in Hmod. congruence.
    - now apply qpsk_trial_odd.
    - now apply qam16_trial_indivisible. }
  split; [apply Hs |].
  intros Hin. apply (@run_schemes_raises schemes s); auto.
  now apply (@indivisible_by_4 s).
Qed.

Lemma indivisible_bit_count_raises_witness :
  trial QPSK 0 [1; 0; 1]%Z silent = Raise ValueError
  /\ (In QPSK MODULATION_SCHEMES ->
      run_schemes MODULATION_SCHEMES 0 [1; 0; 1]%Z silent
      = Raise ValueError).
Proof.
  apply (@indivisible_bit_count_raises QPSK 0 [1; 0; 1]%Z silent
           MODULATION_SCHEMES).
  simpl. lia.
Defined.

(** * Further properties *)

(** ** The first least element *)



(** ** The 16-QAM decision *)




(** X4.  The reverse table is the inverse of the table: a point looks up
    to a bit group in [demapping] exactly when that group looks up to the
    point in [mapping]. *)
Theorem qam16_tables_are_inverse (g : list Z) (v : complex) :
  Dict.get tuple_eqb mapping g = Ok v
  <-> Dict.get complex_eqb demapping v = Ok g.
Proof.
  split; intros H.
  - apply demapping_get. rewrite mapping_unfold in H.
    apply (@get_ok_in _ _ tuple_eqb tuple_eqb_eq) in H. exact H.
  - apply mapping_get. rewrite demapping_unfold in H.
    apply (@get_ok_in _ _ complex_eqb complex_eqb_eq) in H.
    apply in_map_iff in H. destruct H as [[g0 v0] [Heq Hin]].
    cbn [fst snd] in Heq. congruence.
Qed.

(** ** Values that are not bits *)

Lemma get_missing (K V : Type) (eqb : K -> K -> bool)
      (d : Dict.t K V) (key : K) :
  (forall a b, eqb a b = true <-> a = b) ->
  ~ In key (map fst d) -> Dict.get eqb d key = Raise KeyError.
Proof.
  intros Heq. induction d as [| [k0 w] d IH]; cbn [Dict.get map fst In];
    intros Hn; [reflexivity |].
  destruct (eqb key k0) eqn:E.
  - apply Heq in E. subst. exfalso. apply Hn. now left.
  - apply IH. intros Hin. apply Hn. now right.
Qed.

Lemma get_raises_key_error (K V : Type) (eqb : K -> K -> bool)
      (d : Dict.t K V) (key : K) (e : exn) :
  Dict.get eqb d key = Raise e -> e = KeyError.
Proof.
  induction d as [| [k0 w] d IH]; cbn [Dict.get]; intros H.
  - congruence.
  - destruct (eqb key k0); [discriminate | auto].
Qed.

Lemma mapM_get_missing (groups : list (list Z)) (g : list Z) :
  In g groups -> ~ In g (map fst mapping_items) ->
  mapM (Dict.get tuple_eqb mapping) groups = Raise KeyError.
Proof.
  intros Hin Hmiss. induction groups as [| g0 groups IH]; [contradiction |].
  cbn [mapM].
  destruct (Dict.get tuple_eqb mapping g0) as [v | e] eqn:Hg0; cbn [bind].
  - destruct Hin as [-> | Hin].
    + rewrite mapping_unfold, get_missing in Hg0;
        [discriminate | apply tuple_eqb_eq | exact Hmiss].
    + now rewrite IH.
  - apply get_raises_key_error in Hg0. now subst.
Qed.

(** X5.  A value other than 0 or 1 in a bit sequence whose length is a
    multiple of 4 makes the 16-QAM trial raise [KeyError]: its group is not
    a key of the table. *)
Theorem qam16_non_bit_raises_key_error (EbN0_dB : R)
        (transmitted_bits : list Z) (g : rng) (b : Z) :
  (length transmitted_bits mod 4 = 0)%nat ->
  In b transmitted_bits -> ~ is_bit b ->
  trial QAM16 EbN0_dB transmitted_bits g = Raise KeyError.
Proof.
  intros Hmod Hin Hb.
  destruct (@chunks_spec Z 4 (length transmitted_bits / 4) transmitted_bits)
    as [Hc [Hf Hl]].
  { pose proof (Nat.div_mod_eq (length transmitted_bits) 4). lia. }
  unfold trial. cbn [modulate k]. unfold Np.reshape.
  rewrite Hmod. cbn [Nat.eqb bind].
  rewrite <- Hc in Hin. apply in_concat in Hin.
  destruct Hin as [g0 [Hg0 Hbg0]].
  rewrite (@mapM_get_missing _ g0); [reflexivity | exact Hg0 |].
  intros Hkey. apply in_map_iff in Hkey.
  destruct Hkey as [[g1 v] [Heq Hkv]]. cbn [fst] in Heq. subst g1.
  destruct (mapping_entry_bits Hkv) as [_ Hbits].
  rewrite Forall_forall in Hbits. apply Hb. now apply Hbits.
Qed.

Lemma qam16_non_bit_raises_key_error_witness :
  trial QAM16 0 [0; 2; 0; 1]%Z silent = Raise KeyError.
Proof.
  apply (@qam16_non_bit_raises_key_error 0 [0; 2; 0; 1]%Z silent 2%Z).
  - reflexivity.
  - simpl. tauto.
  - unfold is_bit. lia.
Defined.

(** ** What the QPSK mapper accepts *)

Lemma broadcast2_ok_iff (A B C : Type) (f : A -> B -> C)
      (xs : list A) (ys : list B) :
  (exists zs, Np.broadcast2 f xs ys = Ok zs)
  <-> (length xs = length ys \/ length xs = 1 \/ length ys = 1)%nat.
Proof.
  unfold Np.broadcast2.
  destruct (Nat.eqb_spec (length xs) (length ys)) as [Heq | Hne].
  - split; [auto | eauto].
  - destruct xs as [| x [| x' xs]]; destruct ys as [| y [| y' ys]];
      cbn [length] in *; split;
      try (intros [zs H]; discriminate H);
      try (intros _; eauto; fail);
      try (intros; lia).
Qed.

Lemma stride_lengths (n : nat) :
  exists m,
    (n = 2 * m /\ n mod 2 = 0 /\ Nat.div2 (S n) = m
     /\ Nat.div2 (S (n - 1)) = m)%nat
    \/ (n = 2 * m + 1 /\ n mod 2 = 1 /\ Nat.div2 (S n) = S m
        /\ Nat.div2 (S (n - 1)) = m)%nat.
Proof.
  exists (n / 2)%nat.
  pose proof (Nat.div_mod_eq n 2) as Hd.
  pose proof (Nat.mod_upper_bound n 2) as Hu.
  assert (Hcase : (n mod 2 = 0 \/ n mod 2 = 1)%nat) by lia.
  destruct Hcase as [H0 | H1]; [left | right].
  - rewrite H0 in Hd. repeat split; try lia.
    + rewrite Hd at 1. rewrite Nat.add_0_r. apply Nat.div2_succ_double.
    + destruct (n / 2)%nat as [| q] eqn:Hq.
      * replace n with 0%nat by lia. reflexivity.
      * replace (S (n - 1)) with (2 * S q)%nat by lia. apply Nat.div2_double.
  - rewrite H1 in Hd. repeat split; try lia.
    + replace (S n) with (2 * S (n / 2))%nat by lia. apply Nat.div2_double.
    + replace (S (n - 1)) with (S (2 * (n / 2))) by lia.
      apply Nat.div2_succ_double.
Qed.

(** X6.  The QPSK mapper returns symbols exactly when the bit count is
    even, 1 or 3: numpy stretches the one-element slice of a 1-bit or 3-bit
    sequence instead of raising, and every other odd count raises. *)
Theorem qpsk_modulate_accepts (transmitted_bits : list Z) :
  (exists transmitted_symbols,
      modulate QPSK transmitted_bits = Ok transmitted_symbols)
  <-> (length transmitted_bits mod 2 = 0 \/ length transmitted_bits = 1
       \/ length transmitted_bits = 3)%nat.
Proof.
  cbn [modulate].
  set (f := fun (a : Z) (c : complex) => add (of_int a) c).
  set (xs := map qpsk_level (Np.stride2 transmitted_bits)).
  set (ys := map (fun b => mul j (of_int (qpsk_level b)))
                 (Np.stride2 (skipn 1 transmitted_bits))).
  assert (Hx : length xs = Nat.div2 (S (length transmitted_bits))).
  { unfold xs. now rewrite length_map, stride2_length. }
  assert (Hy : length ys = Nat.div2 (S (length transmitted_bits - 1))).
  { unfold ys. now rewrite length_map, stride2_length, length_skipn. }
  pose proof (broadcast2_ok_iff f xs ys) as Hiff.
  rewrite Hx, Hy in Hiff.
  destruct (stride_lengths (length transmitted_bits))
    as [m [[Hn [Hmod [H1 H2]]] | [Hn [Hmod [H1 H2]]]]];
    rewrite H1, H2 in Hiff; rewrite Hmod.
  - split; [auto |]. intros _.
    destruct (proj2 Hiff) as [zs Hzs]; [auto |].
    rewrite Hzs. cbn [bind]. eauto.
  - split.
    + intros [syms Hs].
      destruct (Np.broadcast2 f xs ys) as [zs | e] eqn:Hb; [| discriminate].
      destruct (proj1 Hiff) as [H | [H | H]]; [eauto | lia | lia | lia].
    + intros H.
      destruct (proj2 Hiff) as [zs Hzs]; [lia |].
      rewrite Hzs. cbn [bind]. eauto.
Qed.

(** ** Decisions under noise within the margin *)

Lemma grid_points_levels :
  Forall (fun p => level (fst p) /\ level (snd p)) grid_points.
Proof.
  unfold grid_points, level.
  repeat (constructor; [cbn [fst snd]; lia |]). constructor.
Qed.

Lemma mapping_value_levels (g : list Z) (v : complex) :
  In (g, v) mapping_items ->
  exists a b, v = mkC (IZR a) (IZR b) /\ level a /\ level b.
Proof.
  intros Hin. apply (in_map snd) in Hin. cbn [snd] in Hin.
  rewrite mapping_values_grid in Hin. apply in_map_iff in Hin.
  destruct Hin as [[a b] [<- Hp]].
  pose proof grid_points_levels as Hl. rewrite Forall_forall in Hl.
  destruct (Hl _ Hp) as [Ha Hb]. exists a, b. auto.
Qed.












Lemma after_trial_channel (s : scheme) (EbN0_dB : R) (groups : list (list Z))
      (syms : list complex) (g : rng) :
  Forall (fun g0 => length g0 = k s) groups ->
  length groups = length syms ->
  snd (channel s EbN0_dB syms g) = after_trial s (length (concat groups)) g.
Proof.
  intros Hf Hlen. rewrite channel_unfold. cbn [snd]. unfold after_trial.
  rewrite (length_concat_uniform Hf), (Nat.mul_comm (k s) (length groups)).
  rewrite Nat.div_mul, Hlen by (destruct s; discriminate).
  f_equal. lia.
Qed.

(** A trial on well-formed bits returns as many bits as it was given and
    leaves the generator two draws per symbol further. *)
Lemma trial_ok_state (s : scheme) (EbN0_dB : R) (bits : list Z) (g : rng) :
  (length bits mod k s = 0)%nat -> Forall is_bit bits ->
  exists received_bits,
    trial s EbN0_dB bits g
    = Ok (received_bits, after_trial s (length bits) g)
    /\ length received_bits = length bits.
Proof.
  intros Hmod Hbits.
  destruct (@split_groups (k s) bits) as [groups [-> Hf]]; auto.
  { destruct s; cbn [k]; lia. }
  destruct (modulate_groups s Hf) as [syms [Hm Hall]].
  pose proof (channel_length s EbN0_dB syms g) as Hlen.
  destruct (demodulate_groups s (fst (channel s EbN0_dB syms g)))
    as [groups' [Hd Hall']].
  rewrite Hlen in Hd.
  assert (Hu : Forall (fun g0 : list Z => length g0 = k s) groups').
  { eapply Forall2_Forall_r; [exact Hall' |]. now intros z g0 [_ [Hl _]]. }
  exists (concat groups'). split.
  - rewrite (@trial_unfold s EbN0_dB _ g syms Hm).
    rewrite (@after_trial_channel s EbN0_dB groups);
      [| now apply uniform_weaken | exact (Forall2_length_eq Hall)].
    rewrite (@length_concat_uniform Z (k s) groups)
      by now apply uniform_weaken.
    rewrite (Forall2_length_eq Hall), Hd. reflexivity.
  - rewrite (length_concat_uniform Hu).
    rewrite (@length_concat_uniform Z (k s) groups)
      by now apply uniform_weaken.
    rewrite <- (Forall2_length_eq Hall'), Hlen.
    now rewrite (Forall2_length_eq Hall).
Qed.









(** ** Bit errors *)

Lemma num_errors_le (a b : list Z) : (num_errors a b <= length a)%nat.
Proof.
  unfold num_errors.
  etransitivity; [apply filter_length_le |].
  rewrite length_combine. apply Nat.le_min_l.
Qed.



Lemma ber_in_unit_interval (a b : list Z) :
  a <> [] -> 0 <= INR (num_errors a b) / INR (length a) <= 1.
Proof.
  intros Ha.
  assert (Hpos : 0 < INR (length a)).
  { apply lt_0_INR. destruct a; [congruence | cbn [length]; lia]. }
  pose proof (pos_INR (num_errors a b)) as H0.
  pose proof (le_INR _ _ (num_errors_le a b)) as H1.
  split.
  - apply Rmult_le_pos; [exact H0 |].
    left. now apply Rinv_0_lt_compat.
  - apply (Rmult_le_reg_r (INR (length a))); [exact Hpos |].
    unfold Rdiv. rewrite Rmult_assoc, Rinv_l by lra. lra.
Qed.

(** X9.  Whenever the loop over the schemes returns, every bit-error rate
    it computed lies between 0 and 1. *)
Theorem bit_error_rates_in_unit_interval (schemes : list scheme)
        (EbN0_dB : R) (transmitted_bits : list Z) (g : rng) :
  transmitted_bits <> [] ->
  match run_schemes schemes EbN0_dB transmitted_bits g with
  | Ok (bers, _) => Forall (fun ber => 0 <= ber <= 1) bers
  | Raise _ => True
  end.
Proof.
  intros Hne. revert g.
  induction schemes as [| s rest IH]; intros g; cbn [run_schemes].
  - constructor.
  - destruct (trial s EbN0_dB transmitted_bits g) as [[r g1] | e];
      cbn [bind]; [| exact I].
    specialize (IH g1). cbn [fst snd].
    destruct (run_schemes rest EbN0_dB transmitted_bits g1)
      as [[bers g2] | e]; cbn [bind fst snd]; [| exact I].
    constructor; [now apply ber_in_unit_interval | exact IH].
Qed.

Lemma bit_error_rates_in_unit_interval_witness :
  match run_schemes MODULATION_SCHEMES 2 [1; 0; 1; 1]%Z silent with
  | Ok (bers, _) => Forall (fun ber => 0 <= ber <= 1) bers
  | Raise _ => True
  end.
Proof.
  apply (@bit_error_rates_in_unit_interval MODULATION_SCHEMES 2
           [1; 0; 1; 1]%Z silent).
  discriminate.
Defined.

(** ** One Eb/N0 value, all schemes *)

Lemma divisible_by_k (s : scheme) (n : nat) :
  (n mod 4 = 0)%nat -> (n mod k s = 0)%nat.
Proof.
  intros H. destruct s; cbn [k].
  - apply Nat.mod_1_r.
  - pose proof (Nat.div_mod_eq n 2). pose proof (Nat.div_mod_eq n 4).
    pose proof (Nat.mod_upper_bound n 2). lia.
  - exact H.
Qed.


Lemma after_three_trials (n : nat) (g : rng) :
  after_trial QAM16 n (after_trial QPSK n (after_trial BPSK n g))
  = mkRng (stream g) (pos g + 2 * n + 2 * (n / 2) + 2 * (n / 4)).
Proof.
  unfold after_trial. cbn [stream pos k]. now rewrite Nat.div_1_r.
Qed.

(** X8.  On well-formed bits whose count is a multiple of 4, the loop over
    BPSK, QPSK and 16-QAM returns three bit-error rates and leaves the
    generator 2N + 2(N/2) + 2(N/4) draws further: each scheme's noise comes
    from its own, consecutive stretch of draws. *)
Theorem sweep_point_returns_three_rates (EbN0_dB : R)
        (transmitted_bits : list Z) (g : rng) :
  (length transmitted_bits mod 4 = 0)%nat ->
  Forall is_bit transmitted_bits ->
  exists bers,
    run_schemes MODULATION_SCHEMES EbN0_dB transmitted_bits g
    = Ok (bers,
          mkRng (stream g)
                (pos g + 2 * length transmitted_bits
                 + 2 * (length transmitted_bits / 2)
                 + 2 * (length transmitted_bits / 4)))
    /\ length bers = 3%nat.
Proof.
  intros Hmod Hbits.
  set (n := length transmitted_bits).
  destruct (@trial_ok_state BPSK EbN0_dB transmitted_bits g)
    as [r1 [H1 _]]; auto using divisible_by_k.
  destruct (@trial_ok_state QPSK EbN0_dB transmitted_bits
              (after_trial BPSK n g)) as [r2 [H2 _]];
    auto using divisible_by_k.
  destruct (@trial_ok_state QAM16 EbN0_dB transmitted_bits
              (after_trial QPSK n (after_trial BPSK n g))) as [r3 [H3 _]];
    auto using divisible_by_k.
  fold n in H1, H2, H3.
  eexists. unfold MODULATION_SCHEMES. cbn [run_schemes].
  rewrite H1. cbn [bind fst snd].
  rewrite H2. cbn [bind fst snd].
  rewrite H3. cbn [bind fst snd].
  rewrite after_three_trials. split; reflexivity.
Qed.

Lemma sweep_point_returns_three_rates_witness :
  exists bers,
    run_schemes MODULATION_SCHEMES 5 [0; 1; 1; 0]%Z silent
    = Ok (bers,
          mkRng (stream silent)
                (pos silent + 2 * length [0; 1; 1; 0]%Z
                 + 2 * (length [0; 1; 1; 0]%Z / 2)
                 + 2 * (length [0; 1; 1; 0]%Z / 4)))
    /\ length bers = 3%nat.
Proof.
  apply (@sweep_point_returns_three_rates 5 [0; 1; 1; 0]%Z silent).
  - reflexivity.
  - apply forallb_is_bit. reflexivity.
Defined.




(** ** The whole sweep *)

Lemma empty_results_unfold : empty_results = results3 [] [] [].
Proof. reflexivity. Qed.

Lemma append_to_results3 (a b c : list R) (s : scheme) (x : R) :
  append_to (results3 a b c) s x
  = Ok (match s with
        | BPSK => results3 (a ++ [x]) b c
        | QPSK => results3 a (b ++ [x]) c
        | QAM16 => results3 a b (c ++ [x])
        end).
Proof. destruct s; reflexivity. Qed.

Lemma get_results3 (a b c : list R) (s : scheme) :
  Dict.get scheme_eqb (results3 a b c) s
  = Ok (match s with BPSK => a | QPSK => b | QAM16 => c end).
Proof. destruct s; reflexivity. Qed.

Lemma randint_bits (n : nat) (st : np_random) :
  (forall i, is_bit (bit_source st i)) ->
  length (fst (randint n st)) = n /\ Forall is_bit (fst (randint n st)).
Proof.
  intros Hsrc. cbn [randint fst]. split.
  - now rewrite length_map, length_seq.
  - apply Forall_forall. intros b Hb. apply in_map_iff in Hb.
    destruct Hb as [i [<- _]]. apply Hsrc.
Qed.

Lemma scheme_loop_all (EbN0_dB : R) (bits : list Z) (a b c : list R)
      (g : rng) :
  (length bits mod 4 = 0)%nat -> Forall is_bit bits ->
  exists x y z g',
    scheme_loop MODULATION_SCHEMES (length bits) EbN0_dB bits
                (results3 a b c) g
    = Ok (results3 (a ++ [x]) (b ++ [y]) (c ++ [z]), g')
    /\ (bits <> [] -> unit_rate x /\ unit_rate y /\ unit_rate z).
Proof.
  intros Hmod Hbits.
  set (n := length bits).
  destruct (@trial_ok_state BPSK EbN0_dB bits g)
    as [r1 [H1 _]]; auto using divisible_by_k.
  destruct (@trial_ok_state QPSK EbN0_dB bits (after_trial BPSK n g))
    as [r2 [H2 _]]; auto using divisible_by_k.
  destruct (@trial_ok_state QAM16 EbN0_dB bits
              (after_trial QPSK n (after_trial BPSK n g)))
    as [r3 [H3 _]]; auto using divisible_by_k.
  fold n in H1, H2, H3.
  do 4 eexists. unfold MODULATION_SCHEMES. cbn [scheme_loop].
  rewrite H1. cbn [bind fst snd]. rewrite append_to_results3. cbn [bind].
  rewrite H2. cbn [bind fst snd]. rewrite append_to_results3. cbn [bind].
  rewrite H3. cbn [bind fst snd]. rewrite append_to_results3. cbn [bind].
  split; [reflexivity |].
  intros Hne. unfold unit_rate, n.
  repeat split; now apply ber_in_unit_interval.
Qed.

Lemma sweep_all (erfc : R -> R) (num_bits : nat) (range : list Z)
      (a b c ta tb tc : list R) (st : np_random) :
  (num_bits mod 4 = 0)%nat ->
  (forall i, is_bit (bit_source st i)) ->
  exists a' b' c' st',
    sweep erfc num_bits range (results3 a b c) (results3 ta tb tc) st
    = Ok (results3 (a ++ a') (b ++ b') (c ++ c'),
          results3
            (ta ++ map (fun dB => theoretical erfc BPSK (IZR dB)) range)
            (tb ++ map (fun dB => theoretical erfc QPSK (IZR dB)) range)
            (tc ++ map (fun dB => theoretical erfc QAM16 (IZR dB)) range),
          st')
    /\ length a' = length range /\ length b' = length range
    /\ length c' = length range
    /\ (num_bits <> 0%nat ->
        Forall unit_rate a' /\ Forall unit_rate b' /\ Forall unit_rate c').
Proof.
  intros Hmod. revert a b c ta tb tc st.
  induction range as [| dB rest IH]; intros a b c ta tb tc st Hsrc.
  - exists [], [], [], st. cbn [sweep map]. rewrite !app_nil_r.
    repeat split; constructor.
  - destruct (@randint_bits num_bits st Hsrc) as [Hlen Hbits].
    cbn [sweep]. destruct (randint num_bits st) as [bits st1] eqn:Hr.
    cbn [fst] in Hlen, Hbits.
    assert (Hst1 : bit_source st1 = bit_source st
                   /\ normal st1 = normal st).
    { cbn [randint] in Hr. injection Hr as _ <-. split; reflexivity. }
    destruct Hst1 as [Hsrc1 Hn1].
    destruct (@scheme_loop_all (IZR dB) bits a b c (normal st1))
      as [x [y [z [g' [Hloop Hrates]]]]]; [now rewrite Hlen | exact Hbits |].
    rewrite Hlen in Hloop. rewrite Hloop. cbn [bind fst snd].
    do 3 (rewrite append_to_results3; cbn [bind]).
    destruct (IH (a ++ [x]) (b ++ [y]) (c ++ [z])
                 (ta ++ [0.5 * erfc (sqrt (EbN0_linear (IZR dB)))])
                 (tb ++ [0.5 * erfc (sqrt (EbN0_linear (IZR dB)))])
                 (tc ++ [3 / 8 * erfc (sqrt (4 / 10 * EbN0_linear (IZR dB)))])
                 (mkRandom (bit_source st1) (bits_taken st1) g'))
      as [a' [b' [c' [st' [Hs [Ha [Hb [Hc Hu]]]]]]]].
    { cbn [bit_source]. now rewrite Hsrc1. }
    exists (x :: a'), (y :: b'), (z :: c'), st'.
    rewrite Hs. rewrite <- !app_assoc. cbn [app map theoretical length].
    split; [reflexivity |].
    do 3 (split; [congruence |]).
    intros Hne. destruct (Hu Hne) as [Ua [Ub Uc]].
    destruct Hrates as [Ux [Uy Uz]].
    { intros ->. cbn [length] in Hlen. congruence. }
    repeat split; constructor; assumption.
Qed.

Lemma simulate_with_tables (erfc : R -> R) (num_bits : nat) (range : list Z)
      (st : np_random) :
  (num_bits mod 4 = 0)%nat -> num_bits <> 0%nat ->
  (forall i, is_bit (bit_source st i)) ->
  exists sim th,
    simulate_with erfc num_bits range st = Ok (sim, th)
    /\ forall s,
        exists rates,
          Dict.get scheme_eqb sim s = Ok rates
          /\ length rates = length range
          /\ Forall unit_rate rates
          /\ Dict.get scheme_eqb th s
             = Ok (map (fun dB => theoretical erfc s (IZR dB)) range).
Proof.
  intros Hmod Hne Hsrc.
  destruct (@sweep_all erfc num_bits range [] [] [] [] [] [] st Hmod Hsrc)
    as [a [b [c [st' [Hs [Ha [Hb [Hc Hu]]]]]]]].
  destruct (Hu Hne) as [Ua [Ub Uc]].
  unfold simulate_with. rewrite empty_results_unfold, Hs.
  cbn [bind fst app]. do 2 eexists. split; [reflexivity |].
  intros s. rewrite !get_results3.
  destruct s; eexists; repeat split; eassumption.
Qed.

Lemma NUM_BITS_divisible :
  (Z.to_nat NUM_BITS mod 4 = 0)%nat /\ Z.to_nat NUM_BITS <> 0%nat.
Proof.
  change NUM_BITS with (4 * 250000)%Z.
  rewrite Z2Nat.inj_mul by lia.
  change (Z.to_nat 4) with 4%nat. split.
  - rewrite Nat.mul_comm. apply Nat.Div0.mod_mul.
  - assert (H : (0 < Z.to_nat 250000)%nat) by lia. lia.
Qed.

(** X10.  With the module's constants (10^6 bits, Eb/N0 from 0 to 14 dB)
    and a bit source that returns only 0 and 1, [simulate_ber] never
    raises: it returns, for each scheme, 15 simulated bit-error rates, all
    between 0 and 1, and the 15 closed-form values in Eb/N0 order. *)
Theorem simulate_ber_returns_full_tables (erfc : R -> R) (st : np_random) :
  (forall i, is_bit (bit_source st i)) ->
  exists sim th,
    simulate_ber erfc st = Ok (sim, th)
    /\ forall s,
        exists rates,
          Dict.get scheme_eqb sim s = Ok rates
          /\ length rates = 15%nat
          /\ Forall unit_rate rates
          /\ Dict.get scheme_eqb th s
             = Ok (map (fun dB => theoretical erfc s (IZR dB))
                       EbN0_dB_range).
Proof.
  intros Hsrc. destruct NUM_BITS_divisible as [Hmod Hne].
  apply (@simulate_with_tables erfc (Z.to_nat NUM_BITS) EbN0_dB_range st
           Hmod Hne Hsrc).
Qed.

Lemma simulate_ber_returns_full_tables_witness :
  exists sim th,
    simulate_ber (fun x => x) (mkRandom (fun _ => 0%Z) 0 silent)
    = Ok (sim, th)
    /\ forall s,
        exists rates,
          Dict.get scheme_eqb sim s = Ok rates
          /\ length rates = 15%nat
          /\ Forall unit_rate rates
          /\ Dict.get scheme_eqb th s
             = Ok (map (fun dB => theoretical (fun x => x) s (IZR dB))
                       EbN0_dB_range).
Proof.
  apply (@simulate_ber_returns_full_tables (fun x => x)
           (mkRandom (fun _ => 0%Z) 0 silent)).
  intros i. left. reflexivity.
Defined.

Lemma scheme_loop_indivisible (EbN0_dB : R) (bits : list Z)
      (num_bits : nat) (a b c : list R) (g : rng) :
  (length bits mod 4 <> 0)%nat ->
  scheme_loop MODULATION_SCHEMES num_bits EbN0_dB bits (results3 a b c) g
  = Raise ValueError.
Proof.
  intros Hmod. unfold MODULATION_SCHEMES. cbn [scheme_loop].
  destruct (trial BPSK EbN0_dB bits g) as [r1 | e] eqn:H1; cbn [bind].
  - rewrite append_to_results3. cbn [bind].
    destruct (trial QPSK EbN0_dB bits (snd r1)) as [r2 | e] eqn:H2;
      cbn [bind].
    + rewrite append_to_results3. cbn [bind].
      now rewrite qam16_trial_indivisible.
    + apply trial_raises_value_error in H2; [now subst | exact Hmod].
  - apply trial_raises_value_error in H1; [now subst | exact Hmod].
Qed.

(** X11.  With a bit count that is not a multiple of 4 and at least one
    Eb/N0 value, the whole simulation raises [ValueError] at the first
    value: nothing is returned, not even the rates already appended. *)
Theorem simulate_with_indivisible_raises (erfc : R -> R) (num_bits : nat)
        (EbN0_dB : Z) (rest : list Z) (st : np_random) :
  (num_bits mod 4 <> 0)%nat ->
  simulate_with erfc num_bits (EbN0_dB :: rest) st = Raise ValueError.
Proof.
  intros Hmod. unfold simulate_with. rewrite empty_results_unfold.
  cbn [sweep randint].
  rewrite scheme_loop_indivisible; [reflexivity |].
  now rewrite length_map, length_seq.
Qed.

Lemma simulate_with_indivisible_raises_witness :
  simulate_with (fun x => x) 6 [0; 1]%Z (mkRandom (fun _ => 0%Z) 0 silent)
  = Raise ValueError.
Proof.
  apply (@simulate_with_indivisible_raises (fun x => x) 6 0%Z [1%Z]
           (mkRandom (fun _ => 0%Z) 0 silent)).
  simpl. lia.
Defined.

(** ** The closed-form curves *)

Lemma EbN0_linear_increasing (x y : R) :
  x < y -> 0 < EbN0_linear x < EbN0_linear y.
Proof.
  intros Hxy. unfold EbN0_linear. split.
  - unfold Rpower. apply exp_pos.
  - apply Rpower_lt; lra.
Qed.

(** X12.  For any strictly decreasing [erfc], each scheme's closed-form
    bit-error rate is strictly decreasing in Eb/N0. *)
Theorem theoretical_decreasing (erfc : R -> R) (s : scheme) (x y : R) :
  (forall u v, u < v -> erfc v < erfc u) ->
  x < y ->
  theoretical erfc s y < theoretical erfc s x.
Proof.
  intros Herfc Hxy.
  destruct (EbN0_linear_increasing Hxy) as [Hpos Hlt].
  destruct s; cbn [theoretical].
  - apply Rmult_lt_compat_l; [lra |].
    apply Herfc. apply sqrt_lt_1_alt. lra.
  - apply Rmult_lt_compat_l; [lra |].
    apply Herfc. apply sqrt_lt_1_alt. lra.
  - apply Rmult_lt_compat_l; [lra |].
    apply Herfc. apply sqrt_lt_1_alt. lra.
Qed.

Lemma theoretical_decreasing_witness :
  theoretical (fun u => - u) QAM16 3 < theoretical (fun u => - u) QAM16 2.
Proof.
  apply (@theoretical_decreasing (fun u => - u) QAM16 2 3).
  - intros u v Huv. lra.
  - lra.
Defined.

(** ** The mapped symbols *)

(** X13.  The QPSK mapper puts the first bit of a pair on the real axis
    and the second on the imaginary axis, bit 0 as +1/sqrt 2 and bit 1 as
    -1/sqrt 2. *)
Theorem qpsk_symbol_of_pair (b0 b1 : Z) :
  is_bit b0 -> is_bit b1 ->
  modulate QPSK [b0; b1]
  = Ok [mkC (IZR (1 - 2 * b0) / sqrt 2) (IZR (1 - 2 * b1) / sqrt 2)].
Proof.
  intros H0 H1.
  assert (Hf : Forall (fun g0 : list Z => length g0 = 2%nat) [[b0; b1]])
    by now constructor.
  apply qpsk_modulate in Hf. cbn [concat map app] in Hf.
  rewrite Hf, qpsk_point_unfold. cbn [nth].
  now rewrite (qpsk_level_bit H0), (qpsk_level_bit H1).
Qed.

Lemma qpsk_symbol_of_pair_witness :
  modulate QPSK [0; 1]%Z
  = Ok [mkC (IZR (1 - 2 * 0) / sqrt 2) (IZR (1 - 2 * 1) / sqrt 2)].
Proof.
  apply (@qpsk_symbol_of_pair 0 1).
  - left. reflexivity.
  - right. reflexivity.
Defined.

Lemma level_square (a : Z) : level a -> IZR a * IZR a = 1 \/ IZR a * IZR a = 9.
Proof.
  intros [-> | [-> | [-> | ->]]]; [right | left | left | right]; lra.
Qed.

Lemma symbol_energy_of_group (s : scheme) (g : list Z) (z : complex) :
  length g = k s -> Forall is_bit g -> modulate s g = Ok [z] ->
  symbol_energy s z.
Proof.
  intros Hl Hb Hm. destruct s; cbn [symbol_energy k] in *.
  - destruct g as [| b [| ? ?]]; try discriminate.
    inversion Hb as [| ? ? Hbit _]; subst.
    cbn [modulate map] in Hm. injection Hm as <-.
    rewrite (bpsk_symbol_bit Hbit). unfold norm2, of_int, of_real.
    cbn [re im]. rewrite minus_IZR, mult_IZR.
    destruct Hbit as [-> | ->]; lra.
  - assert (H1 : Forall (fun g0 : list Z => length g0 = 2%nat) [g])
      by now constructor.
    apply qpsk_modulate in H1. cbn [concat map] in H1.
    rewrite app_nil_r, Hm in H1. injection H1 as ->.
    unfold qpsk_point. rewrite norm2_div_of_real by apply sqrt2_neq_0.
    rewrite sqrt2_sqr. unfold of_int. rewrite add_of_real_imag.
    unfold norm2. cbn [re im].
    destruct g as [| b0 [| b1 [| ? ?]]]; try discriminate.
    inversion Hb as [| ? ? Hb0 Hb']; subst.
    inversion Hb' as [| ? ? Hb1 _]; subst.
    cbn [nth]. rewrite (qpsk_level_bit Hb0), (qpsk_level_bit Hb1).
    rewrite !minus_IZR, !mult_IZR.
    destruct Hb0 as [-> | ->], Hb1 as [-> | ->]; lra.
  - destruct (modulate_one_qam16 Hl Hb Hm) as [v [Hv ->]].
    destruct (mapping_value_levels Hv) as [a [b [-> [Ha Hb0]]]].
    rewrite norm2_div_of_real by apply sqrt10_neq_0.
    rewrite sqrt10_sqr. unfold norm2. cbn [re im].
    destruct (level_square Ha) as [-> | ->],
             (level_square Hb0) as [-> | ->]; lra.
Qed.

(** X14.  Every symbol that BPSK or QPSK transmits has energy exactly 1,
    and every 16-QAM symbol has energy 0.2, 1 or 1.8. *)
Theorem transmitted_symbol_energies (s : scheme) (transmitted_bits : list Z) :
  (length transmitted_bits mod k s = 0)%nat ->
  Forall is_bit transmitted_bits ->
  exists transmitted_symbols,
    modulate s transmitted_bits = Ok transmitted_symbols
    /\ Forall (symbol_energy s) transmitted_symbols.
Proof.
  intros Hmod Hbits.
  destruct (@split_groups (k s) transmitted_bits) as [groups [-> Hf]]; auto.
  { destruct s; cbn [k]; lia. }
  destruct (modulate_groups s Hf) as [syms [Hm Hall]].
  exists syms. split; [exact Hm |].
  clear Hm Hbits Hmod.
  induction Hall as [| g z groups syms Hg _ IH]; constructor.
  - inversion Hf as [| ? ? [Hl Hb] _]; subst.
    now apply (@symbol_energy_of_group s g z).
  - apply IH. now inversion Hf.
Qed.

Lemma transmitted_symbol_energies_witness :
  exists transmitted_symbols,
    modulate QAM16 [1; 0; 1; 1; 0; 1; 0; 1]%Z = Ok transmitted_symbols
    /\ Forall (symbol_energy QAM16) transmitted_symbols.
Proof.
  apply (@transmitted_symbol_energies QAM16 [1; 0; 1; 1; 0; 1; 0; 1]%Z).
  - reflexivity.
  - apply forallb_is_bit. reflexivity.
Defined.

(** ** The noise variance *)


